(** * The generational layout engine of the family-tree viewer

    A shallow embedding of [relDeltaFromRoot], [pickOldest] and
    [buildTreeLayout] from
    [frontend/src/components/FamilyTreeView.tsx], with the properties of
    the layout that the specification states.

    Conventions of the embedding.
    - A JavaScript string is a [string]; a character stands for one code
      unit below 256, which covers the identifiers, names and labels the
      engine compares.
    - A JavaScript [Map] is an association list in insertion order
      ([Array.from(map.entries())] walks it in that order); a [Set] is
      only ever asked for membership and is a list.
    - A [TypeError] thrown by the code is the result [None].
    - [Date] parsing and [localeCompare] belong to the host; they are
      parameters of the engine (Section [Engine]). *)

From Stdlib Require Import List ZArith Lia Bool String Ascii Permutation Arith Sorted.
Import ListNotations.

Local Open Scope string_scope.
Local Open Scope Z_scope.
Local Open Scope list_scope.

(* ================================================================== *)
(** * Host-language primitives *)
(* ================================================================== *)

Module JS.

(** ** Characters *)

Definition code (c : ascii) : nat := nat_of_ascii c.

Definition between (lo hi n : nat) : bool := (lo <=? n)%nat && (n <=? hi)%nat.

(** [\s]: tab, line feed, vertical tab, form feed, carriage return,
    space and no-break space. *)
Definition isSpace (c : ascii) : bool :=
  let n := code c in
  between 9 13 n || (n =? 32)%nat || (n =? 160)%nat.

(** [\w]: letters, digits and the underscore. *)
Definition isWord (c : ascii) : bool :=
  let n := code c in
  between 48 57 n || between 65 90 n || (n =? 95)%nat || between 97 122 n.

Definition lowerChar (c : ascii) : ascii :=
  let n := code c in
  if between 65 90 n || (between 192 222 n && negb (n =? 215)%nat)
  then ascii_of_nat (n + 32) else c.

(** ** Strings *)

Fixpoint toLowerCase (s : string) : string :=
  match s with
  | EmptyString => EmptyString
  | String c s' => String (lowerChar c) (toLowerCase s')
  end.

Fixpoint trimStart (s : string) : string :=
  match s with
  | String c s' => if isSpace c then trimStart s' else s
  | EmptyString => EmptyString
  end.

Fixpoint rev_string (acc s : string) : string :=
  match s with
  | EmptyString => acc
  | String c s' => rev_string (String c acc) s'
  end.

Definition trim (s : string) : string :=
  rev_string "" (trimStart (rev_string "" (trimStart s))).

(** [s.split(/\s+/)]: the pieces between maximal runs of white space.
    [cur] is the piece being read, reversed; [inRun] tells that the
    previous character was white space. *)
Fixpoint splitFrom (cur : string) (inRun : bool) (s : string) : list string :=
  match s with
  | EmptyString => [rev_string "" cur]
  | String c s' =>
      if isSpace c
      then if inRun then splitFrom cur true s'
           else rev_string "" cur :: splitFrom "" true s'
      else splitFrom (String c cur) false s'
  end.

Definition splitSpaces (s : string) : list string := splitFrom "" false s.

(** ** Regular expressions, as far as the lexicon uses them *)

Inductive regex : Type :=
| Lit (l : string)
| Cls (p : ascii -> bool)
| Opt (r : regex)
| Alt (r1 r2 : regex)
| Cat (r1 r2 : regex)
| WordB.

Fixpoint matchLit (l : string) (prev : option ascii) (s : string)
  : option (option ascii * string) :=
  match l with
  | EmptyString => Some (prev, s)
  | String a l' =>
      match s with
      | String c s' => if Ascii.eqb a c then matchLit l' (Some c) s' else None
      | EmptyString => None
      end
  end.

Definition wordBefore (prev : option ascii) : bool :=
  match prev with Some c => isWord c | None => false end.

Definition wordAfter (s : string) : bool :=
  match s with String c _ => isWord c | EmptyString => false end.

(** [rmatch r prev s k]: [r] matches a prefix of [s] (the character
    before it being [prev]) and [k] accepts what follows. *)
Fixpoint rmatch (r : regex) (prev : option ascii) (s : string)
         (k : option ascii -> string -> bool) : bool :=
  match r with
  | Lit l =>
      match matchLit l prev s with
      | Some (p', s') => k p' s'
      | None => false
      end
  | Cls p =>
      match s with
      | String c s' => p c && k (Some c) s'
      | EmptyString => false
      end
  | Opt r1 => rmatch r1 prev s k || k prev s
  | Alt r1 r2 => rmatch r1 prev s k || rmatch r2 prev s k
  | Cat r1 r2 => rmatch r1 prev s (fun p' s' => rmatch r2 p' s' k)
  | WordB => xorb (wordBefore prev) (wordAfter s) && k prev s
  end.

(** The continuation of a search: whatever follows the match is fine. *)
Definition accept (_ : option ascii) (_ : string) : bool := true.

Fixpoint testFrom (r : regex) (prev : option ascii) (s : string) : bool :=
  rmatch r prev s accept
  || match s with
     | String c s' => testFrom r (Some c) s'
     | EmptyString => false
     end.

(** [re.test(s)] *)
Definition test (r : regex) (s : string) : bool := testFrom r None s.

Fixpoint alts (ws : list string) : regex :=
  match ws with
  | [] => Lit ""
  | [w] => Lit w
  | w :: ws' => Alt (Lit w) (alts ws')
  end.

Fixpoint cats (rs : list regex) : regex :=
  match rs with
  | [] => Lit ""
  | [r] => r
  | r :: rs' => Cat r (cats rs')
  end.

(** ** Numbers: an integer or NaN *)

Inductive num : Type :=
| NaN
| Num (z : Z).

Definition sub (a b : num) : num :=
  match a, b with
  | Num x, Num y => Num (x - y)
  | _, _ => NaN
  end.

(** [a !== b] on numbers: NaN differs from everything, itself included. *)
Definition strictNe (a b : num) : bool :=
  match a, b with
  | Num x, Num y => negb (x =? y)
  | _, _ => true
  end.

(** [a <= b] on numbers: false as soon as one side is NaN. *)
Definition le (a b : num) : bool :=
  match a, b with
  | Num x, Num y => x <=? y
  | _, _ => false
  end.

(** ** [Array.prototype.sort]

    The sort is stable; a comparator result that is negative puts the
    first argument first, a positive one the second, and zero or NaN
    keeps the order of the input.  Where NaN makes the comparator
    inconsistent the host may order differently; what is proved below
    of a sorted list is that it rearranges its input, which holds of
    every such order. *)

Definition keepsOrder (v : num) : bool :=
  match v with
  | Num z => z <=? 0
  | NaN => true
  end.

Section Sorting.
Context {A : Type}.

Fixpoint insertBy (cmp : A -> A -> num) (x : A) (l : list A) : list A :=
  match l with
  | [] => [x]
  | y :: l' => if keepsOrder (cmp x y) then x :: l else y :: insertBy cmp x l'
  end.

Definition sortBy (cmp : A -> A -> num) (l : list A) : list A :=
  fold_right (insertBy cmp) [] l.

(** The comparator may throw: the sort stops with the exception. *)
Fixpoint insertByE (cmp : A -> A -> option num) (x : A) (l : list A)
  : option (list A) :=
  match l with
  | [] => Some [x]
  | y :: l' =>
      match cmp x y with
      | None => None
      | Some v =>
          if keepsOrder v then Some (x :: l)
          else match insertByE cmp x l' with
               | Some r => Some (y :: r)
               | None => None
               end
      end
  end.

Fixpoint sortByE (cmp : A -> A -> option num) (l : list A) : option (list A) :=
  match l with
  | [] => Some []
  | x :: l' =>
      match sortByE cmp l' with
      | Some r => insertByE cmp x r
      | None => None
      end
  end.
End Sorting.

(** ** [Map] and [Set] keyed by strings *)

Definition Map (V : Type) : Type := list (string * V).

Fixpoint get {V} (k : string) (m : Map V) : option V :=
  match m with
  | [] => None
  | (k', v) :: m' => if String.eqb k' k then Some v else get k m'
  end.

Definition has {V} (k : string) (m : Map V) : bool :=
  match get k m with Some _ => true | None => false end.

(** [m.set(k, v)]: a present key keeps its place and takes the new
    value, a new key goes last. *)
Fixpoint set {V} (k : string) (v : V) (m : Map V) : Map V :=
  match m with
  | [] => [(k, v)]
  | (k', v') :: m' =>
      if String.eqb k' k then (k', v) :: m' else (k', v') :: set k v m'
  end.

(** [new Map(entries)] *)
Definition ofEntries {V} (es : list (string * V)) : Map V :=
  fold_left (fun m e => set (fst e) (snd e) m) es [].

Definition keys {V} (m : Map V) : list string := map fst m.
Definition values {V} (m : Map V) : list V := map snd m.

Definition SetS : Type := list string.

Definition mem (k : string) (s : SetS) : bool :=
  existsb (String.eqb k) s.

Definition add (k : string) (s : SetS) : SetS :=
  if mem k s then s else (s ++ [k])%list.

End JS.

(* ================================================================== *)
(** * Types *)
(* ================================================================== *)

(** The fields of [FamilyMember] that the layout engine reads. *)
Record FamilyMember : Type := mkMember {
  _id : string;
  name : string;
  dateOfBirth : option string;
  relationship : string;
  fatherId : option string;
  motherId : option string;
  spouseIds : option (list string);
  childrenIds : option (list string)
}.

(** [type Edge = [string, string]]: from, to. *)
Definition Edge : Type := (string * string)%type.

(* ================================================================== *)
(** * Relationship lexicon *)
(* ================================================================== *)

Definition sepOpt : JS.regex :=
  JS.Opt (JS.Cls (fun c => Ascii.eqb c "-"%char || JS.isSpace c)).

Definition elders : JS.regex := JS.alts ["parent"; "father"; "mother"].
Definition youngers : JS.regex := JS.alts ["son"; "daughter"; "child"].

Definition word (ws : list string) : JS.regex :=
  JS.cats [JS.WordB; JS.alts ws; JS.WordB].

(** [/grand(son|daughter|child)/] *)
Definition grandYounger : JS.regex := JS.Cat (JS.Lit "grand") youngers.

(** [/great[-\s]?grand(son|daughter|child)/] *)
Definition greatGrandYounger : JS.regex :=
  JS.Cat (JS.Lit "great") (JS.Cat sepOpt grandYounger).

(** The patterns of [relDeltaFromRoot], in the order the code tests them. *)
Definition lexicon : list (JS.regex * Z) :=
  [ (JS.cats [JS.Lit "great"; sepOpt; JS.Lit "great"; sepOpt; JS.Lit "grand"; elders], 3);
    (JS.cats [JS.Lit "great"; sepOpt; JS.Lit "grand"; elders], 2);
    (JS.cats [JS.Lit "grand"; elders], 1);
    (word ["father"; "mother"; "parent"; "dad"; "mom"], 1);
    (word ["son"; "daughter"; "child"; "kid"], -1);
    (grandYounger, -2);
    (greatGrandYounger, -3);
    (word ["uncle"; "aunt"], 1);
    (word ["nephew"; "niece"], -1);
    (word ["sister"; "brother"; "sibling"], 0) ].

Fixpoint firstMatch (table : list (JS.regex * Z)) (r : string) : option Z :=
  match table with
  | [] => None
  | (re, d) :: table' => if JS.test re r then Some d else firstMatch table' r
  end.

(** relative generation vs root (positive = older, negative = younger) *)
Definition relDeltaFromRoot (rel : string) : option Z :=
  firstMatch lexicon (JS.toLowerCase rel).


(* ================================================================== *)
(** * Graph builder *)
(* ================================================================== *)

Definition orEmpty (l : option (list string)) : list string :=
  match l with Some ids => ids | None => [] end.

(** [if (m.fatherId)]: absent, [null] and the empty string are falsy. *)
Definition truthyId (o : option string) : list string :=
  match o with
  | Some s => if String.eqb s "" then [] else [s]
  | None => []
  end.

(** The parent edges one member contributes, in the order of the loop
    body: children, then father, then mother. *)
Definition memberPEdges (m : FamilyMember) : list Edge :=
  (map (fun cid => (_id m, cid)) (orEmpty (childrenIds m))
   ++ map (fun f => (f, _id m)) (truthyId (fatherId m))
   ++ map (fun f => (f, _id m)) (truthyId (motherId m)))%list.

(** store once (sorted id pair) to avoid duplicates *)
Definition memberSEdges (m : FamilyMember) : list Edge :=
  map (fun s => (_id m, s))
      (filter (fun s => String.ltb (_id m) s) (orEmpty (spouseIds m))).

Definition parentEdges (members : list FamilyMember) : list Edge :=
  flat_map memberPEdges members.

Definition spouseEdges (members : list FamilyMember) : list Edge :=
  flat_map memberSEdges members.

Definition ids (members : list FamilyMember) : list string := map _id members.

(** Every edge the graph builder emits joins two members: no father,
    mother, child or spouse reference that reaches an edge dangles. *)
Definition refsResolve (members : list FamilyMember) : bool :=
  forallb (fun e : Edge => JS.mem (fst e) (ids members) && JS.mem (snd e) (ids members))
          (parentEdges members ++ spouseEdges members).

Definition Edge_dec (x y : Edge) : {x = y} + {x <> y}.
Proof. decide equality; apply string_dec. Defined.

(** Some member with identifier [a] lists [b] among its spouses. *)
Definition listsSpouse (members : list FamilyMember) (a b : string) : bool :=
  existsb (fun m => String.eqb (_id m) a && JS.mem b (orEmpty (spouseIds m))) members.

(* ================================================================== *)
(** * Generation assignment: the worklist *)
(* ================================================================== *)

Record bfsState : Type := mkBfs {
  queue : list (string * Z);
  seen : JS.SetS;
  gen : JS.Map Z
}.

Section Worklist.
Variables pE sE : list Edge.

(** What one visit of [id] at generation [g] pushes, [seen] already
    holding [id]: children one row up, parents one row down, spouses
    on the same row. *)
Definition pushes (seen : JS.SetS) (id : string) (g : Z) : list (string * Z) :=
  (flat_map (fun e : Edge =>
               if String.eqb (fst e) id && negb (JS.mem (snd e) seen)
               then [(snd e, g - 1)] else []) pE
   ++ flat_map (fun e : Edge =>
                  if String.eqb (snd e) id && negb (JS.mem (fst e) seen)
                  then [(fst e, g + 1)] else []) pE
   ++ flat_map (fun e : Edge =>
                  (if String.eqb (fst e) id && negb (JS.mem (snd e) seen)
                   then [(snd e, g)] else [])
                  ++ (if String.eqb (snd e) id && negb (JS.mem (fst e) seen)
                      then [(fst e, g)] else [])) sE)%list.

(** One turn of [while (q.length)]; [None] when the queue is empty. *)
Definition bfsStep (st : bfsState) : option bfsState :=
  match queue st with
  | [] => None
  | (id, g) :: q =>
      if JS.mem id (seen st) then Some (mkBfs q (seen st) (gen st))
      else
        let seen' := JS.add id (seen st) in
        Some (mkBfs (q ++ pushes seen' id g)%list seen' (JS.set id g (gen st)))
  end.

(** At most [fuel] turns of the loop. *)
Fixpoint bfsLoop (fuel : nat) (st : bfsState) : bfsState :=
  match fuel with
  | O => st
  | S fuel' =>
      match bfsStep st with
      | None => st
      | Some st' => bfsLoop fuel' st'
      end
  end.

Definition bfsInit (roots : list string) : bfsState :=
  mkBfs (map (fun id => (id, 0)) roots) [] [].

(** Every identifier the traversal can meet: a root or an endpoint of
    an edge. *)
Definition universe (roots : list string) : list string :=
  (roots ++ map fst pE ++ map snd pE ++ map fst sE ++ map snd sE)%list.

(** No visit pushes more than this many entries. *)
Definition fanout : nat := 2 * List.length pE + 2 * List.length sE.

(** A number of turns within which the queue drains (theorem
    [bfs_drains] below). *)
Definition bfsFuel (roots : list string) : nat :=
  List.length roots + List.length (universe roots) * fanout.

Definition assignGenerations (roots : list string) : JS.Map Z :=
  gen (bfsLoop (bfsFuel roots) (bfsInit roots)).
End Worklist.

(** ** The invariant of the loop and its measure *)

(** The identifiers of [U] not yet seen. *)
Definition unseen (U : list string) (sn : JS.SetS) : nat :=
  List.length (filter (fun x => negb (JS.mem x sn)) U).

Section WorklistInvariant.
Variables pE sE : list Edge.
Variable roots : list string.

(** What is left to do: the queue, and for every identifier not yet
    seen the most its visit can push. *)
Definition measure (st : bfsState) : nat :=
  List.length (queue st) + unseen (universe pE sE roots) (seen st) * fanout pE sE.

(** [seen] and the keys of [gen] are one list, without repeats; the
    queue and [seen] stay within the universe; a root is seen or still
    queued. *)
Record bfsInv (st : bfsState) : Prop := mkInv {
  inv_keys : seen st = JS.keys (gen st);
  inv_nodup : NoDup (seen st);
  inv_queue : forall id g, In (id, g) (queue st) -> In id (universe pE sE roots);
  inv_seen : forall id, In id (seen st) -> In id (universe pE sE roots);
  inv_roots : forall r, In r roots -> In r (seen st) \/ In r (map fst (queue st))
}.
End WorklistInvariant.

(** What one turn of the loop does to the generation map: nothing, or
    one new entry, for an identifier that had none, put last. *)
Definition assignsFresh (st st' : bfsState) : Prop :=
  gen st' = gen st
  \/ exists id g, ~ In id (JS.keys (gen st)) /\ gen st' = (gen st ++ [(id, g)])%list.

(** Every queued and every assigned generation is 0. *)
Definition allZero (es : list (string * Z)) : Prop := Forall (fun e => snd e = 0) es.

(* ================================================================== *)
(** * Rows *)
(* ================================================================== *)

(** [levels[i].push(id)]; [None] when [levels[i]] is undefined. *)
Fixpoint pushAt (i : nat) (id : string) (lv : list (list string))
  : option (list (list string)) :=
  match lv, i with
  | [], _ => None
  | row :: lv', O => Some ((row ++ [id])%list :: lv')
  | row :: lv', S i' =>
      match pushAt i' id lv' with
      | Some r => Some (row :: r)
      | None => None
      end
  end.

(** Normalize so top row is 0.  With no generation at all [Math.min()]
    is [Infinity] and the array of rows has length 0. *)
Definition initLevels (gen : JS.Map Z) : option (list (list string)) :=
  match JS.values gen with
  | [] => Some []
  | g0 :: gs =>
      let minG := fold_left Z.min gs g0 in
      let maxG := fold_left Z.max gs g0 in
      fold_left
        (fun acc (e : string * Z) =>
           match acc with
           | Some lv => pushAt (Z.to_nat (snd e - minG)) (fst e) lv
           | None => None
           end)
        gen (Some (repeat [] (Z.to_nat (maxG - minG + 1))))
  end.

Definition lastToken (s : string) : string :=
  JS.toLowerCase (last (JS.splitSpaces (JS.trim s)) "").

(** infer straight vertical edges between adjacent levels *)
Definition connect (parents kids : list string) : list Edge :=
  flat_map
    (fun ic : nat * string =>
       match nth_error parents (Nat.min (fst ic) (List.length parents - 1)) with
       | Some pid => if String.eqb pid "" then [] else [(pid, snd ic)]
       | None => []
       end)
    (combine (seq 0 (List.length kids)) kids).

Fixpoint inferEdges (levels : list (list string)) : list Edge :=
  match levels with
  | parents :: rest =>
      match rest with
      | kids :: _ => (connect parents kids ++ inferEdges rest)%list
      | [] => []
      end
  | [] => []
  end.

Fixpoint mapE {A B : Type} (f : A -> option B) (l : list A) : option (list B) :=
  match l with
  | [] => Some []
  | x :: l' =>
      match f x with
      | Some y => match mapE f l' with Some r => Some (y :: r) | None => None end
      | None => None
      end
  end.

Record Layout : Type := mkLayout {
  levels : list (list string);
  pEdges : list Edge;
  sEdges : list Edge
}.

(* ================================================================== *)
(** * The engine *)
(* ================================================================== *)

Section Engine.
(** [new Date(d).getFullYear()], NaN for a string that is no date. *)
Variable getFullYear : string -> JS.num.
(** [a.localeCompare(b)] *)
Variable localeCompare : string -> string -> JS.num.

Definition year (d : option string) : option JS.num :=
  match d with
  | Some s => if String.eqb s "" then None else Some (getFullYear s)
  | None => None
  end.

(** [year(d) ?? 9999] *)
Definition yearOr9999 (d : option string) : JS.num :=
  match year d with Some y => y | None => JS.Num 9999 end.

Definition pickOldest (members : list FamilyMember) : option string :=
  let byDOB :=
    JS.sortBy (fun a b => JS.sub (yearOr9999 (dateOfBirth a))
                                 (yearOr9999 (dateOfBirth b))) members in
  match byDOB with
  | m :: _ => Some (_id m)
  | [] => match members with m :: _ => Some (_id m) | [] => None end
  end.

Section Rows.
Variable byId : JS.Map FamilyMember.
Variable pE : list Edge.

(** [byId.get(id)?.name || ''] *)
Definition nameOf (id : string) : string :=
  match JS.get id byId with Some m => name m | None => "" end.

(** One of the parents' last tokens; else the member's own. *)
Definition familyToken (id : string) : string :=
  let candParents := map fst (filter (fun e : Edge => String.eqb (snd e) id) pE) in
  let own := lastToken (nameOf id) in
  match candParents with
  | p :: _ =>
      if String.eqb p "" then own
      else let t := lastToken (nameOf p) in
           if String.eqb t "" then own else t
  | [] => own
  end.

(** [if (!families.has(token)) families.set(token, []);
     families.get(token)!.push(id)] *)
Definition addToFamily (families : JS.Map (list string)) (id : string)
  : JS.Map (list string) :=
  let token := familyToken id in
  let ids := match JS.get token families with Some ids => ids | None => [] end in
  JS.set token (ids ++ [id])%list families.

(** sort each bucket by DOB then name; [byId.get(a)!] is undefined
    for an identifier that is no member, and reading its
    [dateOfBirth] throws. *)
Definition byDobThenName (a b : string) : option JS.num :=
  match JS.get a byId, JS.get b byId with
  | Some A, Some B =>
      let ya := yearOr9999 (dateOfBirth A) in
      let yb := yearOr9999 (dateOfBirth B) in
      Some (if JS.strictNe ya yb then JS.sub ya yb
            else localeCompare (name A) (name B))
  | _, _ => None
  end.

Definition sortBucket (b : string * list string) : option (string * list string) :=
  match JS.sortByE byDobThenName (snd b) with
  | Some ids => Some (fst b, ids)
  | None => None
  end.

Definition orderRow (row : list string) : option (list string) :=
  let families := fold_left addToFamily row [] in
  match mapE sortBucket families with
  | Some sortedBuckets =>
      Some (flat_map snd
              (JS.sortBy (fun A B => localeCompare (fst A) (fst B)) sortedBuckets))
  | None => None
  end.
End Rows.

(** Fill any unvisited nodes using relationship or DOB heuristic. *)
Definition fillOne (byId : JS.Map FamilyMember) (fallbackRoot : string) (rootG : Z)
           (gen : JS.Map Z) (m : FamilyMember) : JS.Map Z :=
  if JS.has (_id m) gen then gen
  else
    match relDeltaFromRoot (relationship m) with
    | Some d => JS.set (_id m) (rootG + d) gen
    | None =>
        let ym := year (dateOfBirth m) in
        let yr := year (match JS.get fallbackRoot byId with
                        | Some r => dateOfBirth r
                        | None => None
                        end) in
        JS.set (_id m)
               (match ym, yr with
                | Some a, Some b => if JS.le a b then rootG + 1 else rootG - 1
                | _, _ => rootG
                end) gen
    end.

(** Roots = people who are never a child in any pEdge; fallback =
    oldest by DOB. *)
Definition candidateRoots (members : list FamilyMember) (pE : list Edge) : list string :=
  let childrenSet := map snd pE in
  filter (fun id => negb (JS.mem id childrenSet)) (map _id members).

Definition selectRoots (members : list FamilyMember) (pE : list Edge)
           (fallbackRoot : string) : list string :=
  match candidateRoots members pE with
  | [] => [fallbackRoot]
  | c :: cs => c :: cs
  end.

Definition generations (members : list FamilyMember) (fallbackRoot : string)
  : JS.Map Z :=
  let byId := JS.ofEntries (map (fun m => (_id m, m)) members) in
  let pE := parentEdges members in
  let sE := spouseEdges members in
  let gen := assignGenerations pE sE (selectRoots members pE fallbackRoot) in
  let rootG := match JS.get fallbackRoot gen with Some g => g | None => 0 end in
  fold_left (fillOne byId fallbackRoot rootG) members gen.

Definition buildTreeLayout (members : list FamilyMember) : option Layout :=
  match members with
  | [] => Some (mkLayout [] [] [])
  | _ :: _ =>
      let byId := JS.ofEntries (map (fun m => (_id m, m)) members) in
      let pE := parentEdges members in
      let sE := spouseEdges members in
      match pickOldest members with
      | None => None
      | Some fallbackRoot =>
          match initLevels (generations members fallbackRoot) with
          | None => None
          | Some rows =>
              match mapE (orderRow byId pE) rows with
              | None => None
              | Some ordered =>
                  Some (mkLayout ordered
                          (match pE with
                           | [] => inferEdges ordered
                           | _ :: _ => pE
                           end)
                          sE)
              end
          end
      end
  end.
End Engine.

(* ================================================================== *)
(** * A reference host and sample inputs, for running the engine *)
(* ================================================================== *)

Module Host.
Definition digit (c : ascii) : option Z :=
  let n := JS.code c in
  if JS.between 48 57 n then Some (Z.of_nat (n - 48)) else None.

(** Four-digit year strings, read as that year; NaN otherwise. *)
Definition getFullYear (s : string) : JS.num :=
  match s with
  | String a (String b (String c (String d EmptyString))) =>
      match digit a, digit b, digit c, digit d with
      | Some x, Some y, Some z, Some w => JS.Num (1000 * x + 100 * y + 10 * z + w)
      | _, _, _, _ => JS.NaN
      end
  | _ => JS.NaN
  end.

(** Collation by code unit. *)
Definition localeCompare (a b : string) : JS.num :=
  match String.compare a b with
  | Lt => JS.Num (-1)
  | Eq => JS.Num 0
  | Gt => JS.Num 1
  end.

Definition layout : list FamilyMember -> option Layout :=
  buildTreeLayout getFullYear localeCompare.
End Host.

Definition person (id nm rel : string) : FamilyMember :=
  mkMember id nm None rel None None None None.

Definition scenario : list FamilyMember :=
  [ mkMember "1" "Ann Lee" (Some "1940") "Grandmother" None None None None;
    mkMember "2" "Bob Lee" (Some "1965") "Father" None (Some "1") None None;
    mkMember "3" "Cid Lee" (Some "1990") "Son" (Some "2") None None None ].

(** Three members with labels only: no identifier link, no birth date. *)
Definition unlinked : list FamilyMember :=
  [ person "a" "Al Roe" "Grandfather"; person "b" "Bo Roe" "Father";
    person "c" "Cy Roe" "Son" ].

(** A member listing a child that is not in the collection. *)
Definition danglingChild : list FamilyMember :=
  [ mkMember "a" "Al Roe" None "Self" None None None (Some ["x"]) ].

(** A member listing two children that are not in the collection. *)
Definition danglingChildren : list FamilyMember :=
  [ mkMember "a" "Al Roe" None "Self" None None None (Some ["x"; "y"]) ].

(** A member whose father is not in the collection. *)
Definition danglingFather : list FamilyMember :=
  [ mkMember "b" "Bo Roe" None "Self" (Some "x") None None None ].

(** One member without links, and two that name each other as father,
    so that no root reaches them: they are placed by their labels. *)
Definition sparse : list FamilyMember :=
  [ person "a" "Al Roe" "Self";
    mkMember "b" "Bo Roe" None "Great-great-grandfather" (Some "c") None None None;
    mkMember "c" "Cy Roe" None "Grandfather" (Some "b") None None None ].

(** The same identifier twice. *)
Definition twins : list FamilyMember :=
  [ person "a" "Al Roe" "Self"; person "a" "Bo Roe" "Father" ].

(** Two members listing each other as spouse. *)
Definition couple : list FamilyMember :=
  [ mkMember "a" "Al Roe" None "Self" None None (Some ["b"]) None;
    mkMember "b" "Bo Roe" None "Wife" None None (Some ["a"]) None ].


(* ================================================================== *)
(** * Around the engine: vocabulary, the viewer, the CSV export *)
(* ================================================================== *)

(** [Math.min(...gen.values())] and [Math.max(...gen.values())], for a
    map that is not empty. *)
Definition minGen (gen : JS.Map Z) : Z :=
  match JS.values gen with
  | [] => 0
  | g0 :: gs => fold_left Z.min gs g0
  end.

Definition maxGen (gen : JS.Map Z) : Z :=
  match JS.values gen with
  | [] => 0
  | g0 :: gs => fold_left Z.max gs g0
  end.

(** The identifiers assigned generation [g], in the order of their
    assignment. *)
Definition assignedAt (gen : JS.Map Z) (g : Z) : list string :=
  map fst (filter (fun e : string * Z => snd e =? g) gen).

Section Neighbours.
Variables pE sE : list Edge.

(** An edge of either kind joins [a] and [b], in either direction. *)
Definition linked (a b : string) : Prop :=
  In (a, b) pE \/ In (b, a) pE \/ In (a, b) sE \/ In (b, a) sE.

(** Why [id] may sit at generation [g]: it is a root at 0, or some
    assigned identifier [n] is its parent one row below, its child one
    row above, or its spouse on the same row. *)
Definition justified (roots : list string) (gen : JS.Map Z) (id : string) (g : Z) : Prop :=
  (In id roots /\ g = 0)
  \/ exists n gn, JS.get n gen = Some gn
                  /\ ((In (n, id) pE /\ g = gn - 1)
                      \/ (In (id, n) pE /\ g = gn + 1)
                      \/ ((In (n, id) sE \/ In (id, n) sE) /\ g = gn)).
End Neighbours.

Section TraversalInvariants.
Variables pE sE : list Edge.
Variable roots : list string.

(** The roots are the head of the queue until each of them has been
    taken, and as long as one is left nothing but 0 has been assigned. *)
Definition rootsFirst (st : bfsState) : Prop :=
  exists rs rest,
    queue st = map (fun id => (id, 0)) rs ++ rest
    /\ (rs <> [] -> allZero (gen st))
    /\ forall r, In r roots -> In r rs \/ JS.get r (gen st) = Some 0.

(** Whoever is seen has its neighbours seen or queued. *)
Definition frontierClosed (st : bfsState) : Prop :=
  forall id x, In id (seen st) -> linked pE sE id x ->
               In x (seen st) \/ In x (map fst (queue st)).

(** Every queued and every assigned generation has its reason. *)
Definition allJustified (st : bfsState) : Prop :=
  (forall x gx, In (x, gx) (queue st) -> justified pE sE roots (gen st) x gx)
  /\ (forall x gx, In (x, gx) (gen st) -> justified pE sE roots (gen st) x gx).

(** A root, or joined to a connected identifier by an edge of either
    kind in either direction. *)
Inductive connected : string -> Prop :=
| connected_root (r : string) : In r roots -> connected r
| connected_step (a b : string) : connected a -> linked pE sE a b -> connected b.

Definition allConnected (st : bfsState) : Prop :=
  (forall x gx, In (x, gx) (queue st) -> connected x)
  /\ (forall x, In x (seen st) -> connected x).

End TraversalInvariants.

(** ** More of the lexicon *)

(** [w] occurs in [s]. *)
Definition contains (w s : string) : Prop :=
  exists pre post, s = String.append pre (String.append w post).

(** [/grand(parent|father|mother)/] *)
Definition grandElder : JS.regex := JS.Cat (JS.Lit "grand") elders.

(** The generation the fill gives a member it has to place, the
    fallback root being on row [rootG]. *)
Definition fillValue (getFullYear : string -> JS.num) (byId : JS.Map FamilyMember) (root : string) (rootG : Z)
           (m : FamilyMember) : Z :=
  match relDeltaFromRoot (relationship m) with
  | Some d => rootG + d
  | None =>
      match year getFullYear (dateOfBirth m),
            year getFullYear (match JS.get root byId with
                              | Some r => dateOfBirth r
                              | None => None
                              end) with
      | Some a, Some b => if JS.le a b then rootG + 1 else rootG - 1
      | _, _ => rootG
      end
  end.

(** ** The viewer's use of the layout *)

(** [tree.members.find(x => x._id === id)!]: the node of a row entry.
    The viewer reads [m.name] next, which throws when no member has
    the identifier. *)
Definition nodeOf (members : list FamilyMember) (id : string) : option FamilyMember :=
  find (fun x => String.eqb (_id x) id) members.

(** [layout.levels.map(row => row.map(id => ...))] *)
Definition renderRows (members : list FamilyMember) (L : Layout)
  : option (list (list FamilyMember)) :=
  mapE (mapE (nodeOf members)) (levels L).

Inductive kind : Type := pc | sp.

(** [getCenter(id)] finds an element for exactly the identifiers that
    have a node in some row. *)
Definition hasNode (L : Layout) (id : string) : bool :=
  JS.mem id (List.concat (levels L)).

(** The connectors drawn, without their geometry: an edge whose two
    ends have a node, with its kind; parent edges first. *)
Definition connectors (L : Layout) : list (Edge * kind) :=
  map (fun e => (e, pc))
      (filter (fun e : Edge => hasNode L (fst e) && hasNode L (snd e)) (pEdges L))
  ++ map (fun e => (e, sp))
         (filter (fun e : Edge => hasNode L (fst e) && hasNode L (snd e)) (sEdges L)).

(** ** CSV export *)

Definition dquote : ascii := "034"%char.
Definition comma : ascii := ","%char.
Definition newline : ascii := "010"%char.

(** The [replace] of the field: every double quote is written twice. *)
Fixpoint escapeQuotes (s : string) : string :=
  match s with
  | EmptyString => EmptyString
  | String c s' =>
      if Ascii.eqb c dquote
      then String dquote (String dquote (escapeQuotes s'))
      else String c (escapeQuotes s')
  end.

(** [f ?? ''] *)
Definition orBlank (f : option string) : string :=
  match f with Some s => s | None => "" end.

(** The field between double quotes. *)
Definition csvField (f : option string) : string :=
  String dquote (String.append (escapeQuotes (orBlank f)) (String dquote "")).

(** [Array.prototype.join] with a separator of one character. *)
Fixpoint joinWith (sep : ascii) (l : list string) : string :=
  match l with
  | [] => ""
  | x :: l' =>
      match l' with
      | [] => x
      | _ :: _ => String.append x (String sep (joinWith sep l'))
      end
  end.

Definition csvLine (r : list (option string)) : string :=
  joinWith comma (map csvField r).

(** [[headers, ...rows].map(r => r.map(...).join(',')).join('\n')] *)
Definition csvText (table : list (list (option string))) : string :=
  joinWith newline (map csvLine table).

(** [name.replace(/\s+/g, '_')]: every run of white space becomes one
    underscore. [inRun] tells that the previous character was white
    space. *)
Fixpoint underscoreFrom (inRun : bool) (s : string) : string :=
  match s with
  | EmptyString => EmptyString
  | String c s' =>
      if JS.isSpace c
      then if inRun then underscoreFrom true s'
           else String "_"%char (underscoreFrom true s')
      else String c (underscoreFrom false s')
  end.

Definition underscoreSpaces (s : string) : string := underscoreFrom false s.

(** ** Reading the CSV text back *)

(** What may follow a field: nothing, or a separator, never a double
    quote. *)
Definition noQuoteAhead (r : string) : Prop :=
  match r with
  | EmptyString => True
  | String c _ => c <> dquote
  end.

(** A line and what follows it, field by field. *)
Fixpoint lineThen (r : list (option string)) (k : string) : string :=
  match r with
  | [] => k
  | f :: r' =>
      String.append (csvField f)
                    (match r' with
                     | [] => k
                     | _ :: _ => String comma (lineThen r' k)
                     end)
  end.

Fixpoint textOf (t : list (list (option string))) : string :=
  match t with
  | [] => ""
  | r :: t' =>
      lineThen r (match t' with
                  | [] => ""
                  | _ :: _ => String newline (textOf t')
                  end)
  end.

(** What may follow a line: nothing, or a line feed. *)
Definition lineEnd (k : string) : Prop :=
  k = "" \/ exists k', k = String newline k'.

(** No character of [s] is white space. *)
Fixpoint noSpace (s : string) : bool :=
  match s with
  | EmptyString => true
  | String c s' => negb (JS.isSpace c) && noSpace s'
  end.

(** ** More sample inputs *)

(** The birth year the reference host reads for a member, 9999 when
    there is no date. *)
Definition hostBorn (m : FamilyMember) : Z :=
  match yearOr9999 Host.getFullYear (dateOfBirth m) with
  | JS.Num z => z
  | JS.NaN => 0
  end.

(** A father, his child, and the child's spouse, who has no recorded
    parents. *)
Definition inLaw : list FamilyMember :=
  [ person "f" "Fred Poe" "Father";
    mkMember "c" "Cleo Poe" None "Daughter" (Some "f") None (Some ["s"]) None;
    person "s" "Sam Ray" "Son-in-law" ].

(** A member whose father and mother are both missing from the
    collection. *)
Definition danglingParents : list FamilyMember :=
  [ mkMember "b" "Bo Roe" None "Self" (Some "x") (Some "y") None None ].

(** A member listing a spouse that is not in the collection. *)
Definition danglingSpouse : list FamilyMember :=
  [ mkMember "a" "Al Roe" None "Self" None None (Some ["z"]) None ].

(** A member listing the same spouse twice. *)
Definition listedTwice : list FamilyMember :=
  [ mkMember "a" "Al Roe" None "Self" None None (Some ["b"; "b"]) None;
    person "b" "Bo Roe" "Wife" ].

(** Two members with one identifier, each listing the same spouse. *)
Definition sameIdTwice : list FamilyMember :=
  [ mkMember "a" "Al Roe" None "Self" None None (Some ["b"]) None;
    mkMember "a" "Al Roe" None "Self" None None (Some ["b"]) None;
    person "b" "Bo Roe" "Wife" ].

(** One member without links, born 1950, and two that name each other
    as father: a cousin whose birth date does not parse and a friend
    without one. *)
Definition oddDates : list FamilyMember :=
  [ mkMember "a" "Al Roe" (Some "1950") "Self" None None None None;
    mkMember "b" "Bo Roe" (Some "n/a") "Cousin" (Some "c") None None None;
    mkMember "c" "Cy Roe" None "Friend" (Some "b") None None None ].

(** The same, by identifier. *)
Definition hostBornById (members : list FamilyMember) (id : string) : Z :=
  match JS.get id (JS.ofEntries (map (fun m => (_id m, m)) members)) with
  | Some m => hostBorn m
  | None => 0
  end.

(* ================================================================== *)
(** * Facts about the host primitives *)
(* ================================================================== *)

Lemma mem_In (k : string) (s : JS.SetS) : JS.mem k s = true <-> In k s.
Proof.
  unfold JS.mem. rewrite existsb_exists. split.
  - intros [x [Hx He]]. apply String.eqb_eq in He. now subst.
  - intros H. exists k. split; [assumption | apply String.eqb_refl].
Qed.

Lemma mem_false (k : string) (s : JS.SetS) : JS.mem k s = false <-> ~ In k s.
Proof.
  rewrite <- mem_In. destruct (JS.mem k s); split; congruence.
Qed.

Lemma add_fresh (k : string) (s : JS.SetS) :
  JS.mem k s = false -> JS.add k s = (s ++ [k])%list.
Proof. unfold JS.add. now intros ->. Qed.

Section MapFacts.
Context {V : Type}.
Implicit Types (m : JS.Map V) (k : string) (v : V).

Lemma get_In_keys m k : JS.get k m <> None <-> In k (JS.keys m).
Proof.
  induction m as [|[k' v'] m IH]; simpl.
  - split; [congruence | tauto].
  - destruct (String.eqb_spec k' k) as [->|Hne].
    + split; [auto | congruence].
    + rewrite IH. split; [auto | intros [H|H]; [congruence | assumption]].
Qed.

Lemma has_In_keys m k : JS.has k m = true <-> In k (JS.keys m).
Proof.
  rewrite <- get_In_keys. unfold JS.has.
  destruct (JS.get k m); split; congruence.
Qed.

Lemma has_false m k : JS.has k m = false <-> ~ In k (JS.keys m).
Proof.
  rewrite <- has_In_keys. destruct (JS.has k m); split; congruence.
Qed.

Lemma get_Some_In m k v : JS.get k m = Some v -> In (k, v) m.
Proof.
  induction m as [|[k' v'] m IH]; simpl; [congruence|].
  destruct (String.eqb_spec k' k) as [->|Hne].
  - intros [= ->]. now left.
  - intros H. right. auto.
Qed.

Lemma In_get_NoDup m k v : NoDup (JS.keys m) -> In (k, v) m -> JS.get k m = Some v.
Proof.
  induction m as [|[k' v'] m IH]; simpl; [tauto|].
  intros Hnd [H|H].
  - injection H as -> ->. now rewrite String.eqb_refl.
  - inversion Hnd as [|? ? Hnot Hnd']; subst.
    destruct (String.eqb_spec k' k) as [->|Hne].
    + exfalso. apply Hnot. change (In (fst (k, v)) (map fst m)). now apply in_map.
    + auto.
Qed.

(** A new key goes last. *)
Lemma set_fresh m k v : ~ In k (JS.keys m) -> JS.set k v m = (m ++ [(k, v)])%list.
Proof.
  induction m as [|[k' v'] m IH]; simpl; [reflexivity|].
  intros H. destruct (String.eqb_spec k' k) as [->|Hne]; [tauto|].
  rewrite IH; tauto.
Qed.

(** A present key keeps the key list as it is. *)
Lemma keys_set_present m k v : In k (JS.keys m) -> JS.keys (JS.set k v m) = JS.keys m.
Proof.
  induction m as [|[k' v'] m IH]; simpl; [tauto|].
  intros H. destruct (String.eqb_spec k' k) as [->|Hne]; simpl; [reflexivity|].
  f_equal. apply IH. destruct H; [congruence | assumption].
Qed.

Lemma keys_set_fresh m k v :
  ~ In k (JS.keys m) -> JS.keys (JS.set k v m) = (JS.keys m ++ [k])%list.
Proof.
  intros H. rewrite set_fresh by assumption. unfold JS.keys. now rewrite map_app.
Qed.

Lemma In_keys_set m k v k0 :
  In k0 (JS.keys (JS.set k v m)) <-> k0 = k \/ In k0 (JS.keys m).
Proof.
  destruct (in_dec string_dec k (JS.keys m)) as [Hin|Hout].
  - rewrite keys_set_present by assumption. split; [auto | intros [->|H]; assumption].
  - rewrite keys_set_fresh by assumption. rewrite in_app_iff. simpl.
    split; [intros [H|[H|[]]]; auto | intros [H|H]; auto].
Qed.

Lemma get_set_same m k v : JS.get k (JS.set k v m) = Some v.
Proof.
  induction m as [|[k' v'] m IH]; simpl.
  - now rewrite String.eqb_refl.
  - destruct (String.eqb_spec k' k) as [->|Hne]; simpl.
    + now rewrite String.eqb_refl.
    + destruct (String.eqb_spec k' k); [congruence | assumption].
Qed.

Lemma get_set_other m k v k0 : k0 <> k -> JS.get k0 (JS.set k v m) = JS.get k0 m.
Proof.
  intros Hne. induction m as [|[k' v'] m IH]; simpl.
  - destruct (String.eqb_spec k k0); [congruence | reflexivity].
  - destruct (String.eqb_spec k' k) as [->|Hne']; simpl.
    + destruct (String.eqb_spec k k0); [congruence | reflexivity].
    + now rewrite IH.
Qed.

Lemma In_keys_ofEntries_gen (es : list (string * V)) m k :
  In k (JS.keys (fold_left (fun m e => JS.set (fst e) (snd e) m) es m))
  <-> In k (map fst es) \/ In k (JS.keys m).
Proof.
  revert m. induction es as [|[k' v'] es IH]; intros m; simpl.
  - tauto.
  - rewrite IH, In_keys_set. intuition auto.
Qed.

Lemma In_keys_ofEntries (es : list (string * V)) k :
  In k (JS.keys (JS.ofEntries es)) <-> In k (map fst es).
Proof. unfold JS.ofEntries. rewrite In_keys_ofEntries_gen. simpl. tauto. Qed.
End MapFacts.

Section SortFacts.
Context {A : Type}.

Lemma insertBy_perm (cmp : A -> A -> JS.num) x l :
  Permutation (JS.insertBy cmp x l) (x :: l).
Proof.
  induction l as [|y l IH]; simpl; [reflexivity|].
  destruct (JS.keepsOrder (cmp x y)); [reflexivity|].
  rewrite IH. apply perm_swap.
Qed.

Lemma sortBy_perm (cmp : A -> A -> JS.num) l : Permutation (JS.sortBy cmp l) l.
Proof.
  induction l as [|x l IH]; simpl; [reflexivity|].
  rewrite insertBy_perm. now constructor.
Qed.

Lemma insertByE_total (cmp : A -> A -> option JS.num) (ok : A -> Prop) x l :
  (forall a b, ok a -> ok b -> cmp a b <> None) ->
  ok x -> Forall ok l ->
  exists r, JS.insertByE cmp x l = Some r /\ Permutation r (x :: l).
Proof.
  intros Hcmp Hx. induction 1 as [|y l Hy Hl IH]; simpl.
  - eauto.
  - destruct (cmp x y) as [v|] eqn:E; [|now apply Hcmp in E].
    destruct (JS.keepsOrder v); [eauto|].
    destruct IH as [r [-> Hr]]. eexists. split; [reflexivity|].
    rewrite Hr. apply perm_swap.
Qed.

Lemma sortByE_total (cmp : A -> A -> option JS.num) (ok : A -> Prop) l :
  (forall a b, ok a -> ok b -> cmp a b <> None) ->
  Forall ok l ->
  exists r, JS.sortByE cmp l = Some r /\ Permutation r l.
Proof.
  intros Hcmp. induction 1 as [|x l Hx Hl IH]; simpl.
  - eauto.
  - destruct IH as [r [-> Hr]].
    destruct (insertByE_total cmp ok x r Hcmp Hx) as [r' [-> Hr']].
    + eapply Permutation_Forall; [symmetry; eassumption | assumption].
    + eexists. split; [reflexivity|]. rewrite Hr'. now constructor.
Qed.
End SortFacts.

(* ================================================================== *)
(** * The worklist: invariant and termination *)
(* ================================================================== *)

Lemma flat_map_length_le {A B : Type} (f : A -> list B) (c : nat) (l : list A) :
  (forall x, (List.length (f x) <= c)%nat) ->
  (List.length (flat_map f l) <= c * List.length l)%nat.
Proof.
  intros Hf. induction l as [|x l IH]; simpl; [lia|].
  rewrite length_app. specialize (Hf x). nia.
Qed.

Lemma unseen_le (U : list string) (sn : JS.SetS) : (unseen U sn <= List.length U)%nat.
Proof. apply filter_length_le. Qed.

Lemma mem_app_one (x k : string) (sn : JS.SetS) :
  JS.mem x (sn ++ [k]) = JS.mem x sn || String.eqb x k.
Proof. unfold JS.mem. rewrite existsb_app. simpl. now rewrite orb_false_r. Qed.

Lemma unseen_add_le (U : list string) (sn : JS.SetS) (k : string) :
  (unseen U (sn ++ [k]) <= unseen U sn)%nat.
Proof.
  unfold unseen. induction U as [|x U IH]; simpl; [lia|].
  rewrite mem_app_one. destruct (JS.mem x sn); simpl; [assumption|].
  destruct (String.eqb x k); simpl; lia.
Qed.

Lemma unseen_add_lt (U : list string) (sn : JS.SetS) (k : string) :
  In k U -> JS.mem k sn = false -> (unseen U (sn ++ [k]) < unseen U sn)%nat.
Proof.
  intros Hin Hk. unfold unseen. induction U as [|x U IH]; simpl; [contradiction|].
  rewrite mem_app_one. destruct Hin as [->|Hin].
  - rewrite Hk, String.eqb_refl. simpl.
    pose proof (unseen_add_le U sn k) as H. unfold unseen in H. lia.
  - specialize (IH Hin). destruct (JS.mem x sn); simpl; [assumption|].
    destruct (String.eqb x k); simpl; lia.
Qed.

Section WorklistFacts.
Variables pE sE : list Edge.
Variable roots : list string.

Let U := universe pE sE roots.

Lemma pushes_length sn id g :
  (List.length (pushes pE sE sn id g) <= fanout pE sE)%nat.
Proof.
  unfold pushes, fanout. rewrite !length_app.
  match goal with
  | |- (List.length (flat_map ?f pE)
        + (List.length (flat_map ?h pE) + List.length (flat_map ?k sE)) <= _)%nat =>
      assert (H1 := flat_map_length_le f 1%nat pE);
      assert (H2 := flat_map_length_le h 1%nat pE);
      assert (H3 := flat_map_length_le k 2%nat sE)
  end.
  lapply H1; [clear H1; intros H1 | intros x; destruct (andb _ _); simpl; lia].
  lapply H2; [clear H2; intros H2 | intros x; destruct (andb _ _); simpl; lia].
  lapply H3; [clear H3; intros H3 |].
  - lia.
  - intros x. rewrite length_app.
    destruct (String.eqb (fst x) id && _); destruct (String.eqb (snd x) id && _);
      simpl; lia.
Qed.

(** Whatever is pushed is an endpoint of an edge, not yet seen, at a
    generation within one of the visited one. *)
Lemma pushes_spec sn id g x gx :
  In (x, gx) (pushes pE sE sn id g) ->
  JS.mem x sn = false
  /\ ((In (id, x) pE /\ gx = g - 1) \/ (In (x, id) pE /\ gx = g + 1)
      \/ ((In (id, x) sE \/ In (x, id) sE) /\ gx = g)).
Proof.
  unfold pushes. rewrite !in_app_iff, !in_flat_map.
  intros [[[a b] [He Hx]]|[[[a b] [He Hx]]|[[a b] [He Hx]]]]; simpl in Hx.
  - destruct (String.eqb_spec a id) as [->|]; simpl in Hx; [|contradiction].
    destruct (JS.mem b sn) eqn:Hm; simpl in Hx; [contradiction|].
    destruct Hx as [[= <- <-]|[]]. auto.
  - destruct (String.eqb_spec b id) as [->|]; simpl in Hx; [|contradiction].
    destruct (JS.mem a sn) eqn:Hm; simpl in Hx; [contradiction|].
    destruct Hx as [[= <- <-]|[]]. auto.
  - apply in_app_iff in Hx. destruct Hx as [Hx|Hx].
    + destruct (String.eqb_spec a id) as [->|]; simpl in Hx; [|contradiction].
      destruct (JS.mem b sn) eqn:Hm; simpl in Hx; [contradiction|].
      destruct Hx as [[= <- <-]|[]]. auto 6.
    + destruct (String.eqb_spec b id) as [->|]; simpl in Hx; [|contradiction].
      destruct (JS.mem a sn) eqn:Hm; simpl in Hx; [contradiction|].
      destruct Hx as [[= <- <-]|[]]. auto 6.
Qed.

Lemma edge_in_universe (a b : string) :
  In (a, b) pE \/ In (a, b) sE -> In a U /\ In b U.
Proof.
  unfold U, universe. rewrite !in_app_iff.
  intros [H|H].
  - split.
    + right; left. change a with (fst (a, b)). now apply in_map.
    + right; right; left. change b with (snd (a, b)). now apply in_map.
  - split.
    + do 3 right; left. change a with (fst (a, b)). now apply in_map.
    + do 4 right. change b with (snd (a, b)). now apply in_map.
Qed.

Lemma pushes_in_universe sn id g x gx :
  In (x, gx) (pushes pE sE sn id g) -> In x U.
Proof.
  intros H. apply pushes_spec in H.
  destruct H as [_ [[H _]|[[H _]|[[H|H] _]]]].
  - apply (edge_in_universe id x); auto.
  - apply (edge_in_universe x id); auto.
  - apply (edge_in_universe id x); auto.
  - apply (edge_in_universe x id); auto.
Qed.

Lemma bfsInit_inv : bfsInv pE sE roots (bfsInit roots).
Proof.
  constructor; simpl.
  - reflexivity.
  - constructor.
  - intros id g H. apply in_map_iff in H. destruct H as [r [[= <- _] Hr]].
    unfold U, universe. apply in_app_iff. now left.
  - contradiction.
  - intros r Hr. right. rewrite map_map. simpl. now rewrite map_id.
Qed.

Lemma bfsStep_spec st st' :
  bfsInv pE sE roots st -> bfsStep pE sE st = Some st' ->
  bfsInv pE sE roots st' /\ (measure pE sE roots st' < measure pE sE roots st)%nat /\ assignsFresh st st'.
Proof.
  intros [Hk Hnd Hq Hs Hr]. unfold bfsStep, measure, assignsFresh.
  destruct (queue st) as [|[id g] q] eqn:Eq; [discriminate|].
  destruct (JS.mem id (seen st)) eqn:Em; intros [= <-]; simpl.
  - split; [|split; [lia | now left]].
    constructor; simpl; auto.
    + intros x gx H. apply (Hq x gx). now right.
    + intros r Hin. destruct (Hr r Hin) as [H|[H|H]]; auto.
      simpl in H. subst r. left. now apply mem_In.
  - assert (Hfresh : ~ In id (seen st)) by now apply mem_false.
    assert (HidU : In id U) by (apply (Hq id g); now left).
    rewrite add_fresh by assumption.
    split; [|split].
    + constructor; simpl.
      * rewrite keys_set_fresh by (rewrite <- Hk; assumption). now rewrite Hk.
      * apply NoDup_app; [assumption | repeat constructor; simpl; tauto |].
        intros x Hx [<-|[]]. contradiction.
      * intros x gx H. apply in_app_iff in H. destruct H as [H|H].
        -- apply (Hq x gx). now right.
        -- eapply pushes_in_universe; eassumption.
      * intros x Hx. apply in_app_iff in Hx. destruct Hx as [Hx|[<-|[]]]; auto.
      * intros r Hin. destruct (Hr r Hin) as [H|[H|H]].
        -- left. apply in_app_iff. now left.
        -- simpl in H. subst r. left. apply in_app_iff. right. now left.
        -- right. rewrite map_app. apply in_app_iff. now left.
    + rewrite length_app.
      pose proof (pushes_length (seen st ++ [id]) id g).
      pose proof (unseen_add_lt U (seen st) id HidU Em). unfold U in *. nia.
    + right. exists id, g. rewrite <- Hk. split; [assumption|].
      apply set_fresh. now rewrite <- Hk.
Qed.

Lemma bfsLoop_inv n st : bfsInv pE sE roots st -> bfsInv pE sE roots (bfsLoop pE sE n st).
Proof.
  revert st. induction n as [|n IH]; intros st Hst; simpl; [assumption|].
  destruct (bfsStep pE sE st) as [st'|] eqn:E; [|assumption].
  apply IH. now apply (bfsStep_spec st st').
Qed.

Lemma bfsLoop_drains n st :
  bfsInv pE sE roots st -> (measure pE sE roots st <= n)%nat -> queue (bfsLoop pE sE n st) = [].
Proof.
  revert st. induction n as [|n IH]; intros st Hst Hm; simpl.
  - unfold measure in Hm. destruct (queue st); simpl in *; [reflexivity | lia].
  - destruct (bfsStep pE sE st) as [st'|] eqn:E.
    + destruct (bfsStep_spec st st' Hst E) as [Hst' [Hlt _]]. apply IH; [assumption | lia].
    + unfold bfsStep in E. destruct (queue st) as [|[id g] q]; [reflexivity|].
      destruct (JS.mem id (seen st)); discriminate.
Qed.

Lemma bfsInit_measure : (measure pE sE roots (bfsInit roots) <= bfsFuel pE sE roots)%nat.
Proof.
  unfold measure, bfsFuel. simpl. rewrite length_map.
  pose proof (unseen_le U []). fold U. nia.
Qed.

Lemma bfs_drains : queue (bfsLoop pE sE (bfsFuel pE sE roots) (bfsInit roots)) = [].
Proof. apply bfsLoop_drains; [apply bfsInit_inv | apply bfsInit_measure]. Qed.

(** Once the queue is empty the loop has stopped: more fuel changes
    nothing. *)
Lemma bfsLoop_stopped n st : queue st = [] -> bfsLoop pE sE n st = st.
Proof.
  intros Hq. destruct n; simpl; [reflexivity|]. unfold bfsStep. now rewrite Hq.
Qed.

Lemma bfsLoop_add n k st : bfsLoop pE sE (n + k) st = bfsLoop pE sE k (bfsLoop pE sE n st).
Proof.
  revert st. induction n as [|n IH]; intros st; simpl; [reflexivity|].
  destruct (bfsStep pE sE st) as [st'|] eqn:E; [apply IH|].
  symmetry. apply bfsLoop_stopped. unfold bfsStep in E.
  destruct (queue st) as [|[id g] q]; [reflexivity|].
  destruct (JS.mem id (seen st)); discriminate.
Qed.
End WorklistFacts.

(* ================================================================== *)
(** * Rows: every assigned identifier lands in one row *)
(* ================================================================== *)

Lemma fold_min_le (gs : list Z) (g0 : Z) :
  fold_left Z.min gs g0 <= g0 /\ Forall (fun g => fold_left Z.min gs g0 <= g) gs.
Proof.
  revert g0. induction gs as [|g gs IH]; intros g0; simpl.
  - split; [lia | constructor].
  - destruct (IH (Z.min g0 g)) as [H1 H2]. split; [lia|].
    constructor; [lia | assumption].
Qed.

Lemma fold_max_ge (gs : list Z) (g0 : Z) :
  g0 <= fold_left Z.max gs g0 /\ Forall (fun g => g <= fold_left Z.max gs g0) gs.
Proof.
  revert g0. induction gs as [|g gs IH]; intros g0; simpl.
  - split; [lia | constructor].
  - destruct (IH (Z.max g0 g)) as [H1 H2]. split; [lia|].
    constructor; [lia | assumption].
Qed.

Lemma pushAt_ok (i : nat) (id : string) (lv : list (list string)) :
  (i < List.length lv)%nat ->
  exists lv', pushAt i id lv = Some lv'
              /\ List.length lv' = List.length lv
              /\ Permutation (List.concat lv') (id :: List.concat lv).
Proof.
  revert i. induction lv as [|row lv IH]; intros i Hi; simpl in Hi; [lia|].
  destruct i as [|i]; simpl.
  - eexists. split; [reflexivity|]. split; [reflexivity|]. simpl.
    rewrite <- app_assoc. simpl. symmetry. apply Permutation_middle.
  - destruct (IH i) as [lv' [-> [Hlen Hperm]]]; [lia|].
    eexists. split; [reflexivity|]. split; [simpl; now rewrite Hlen|]. simpl.
    rewrite Hperm. symmetry. apply Permutation_middle.
Qed.

Lemma fillRows_ok (minG : Z) (es : list (string * Z)) (lv : list (list string)) :
  Forall (fun e => (Z.to_nat (snd e - minG) < List.length lv)%nat) es ->
  exists lv',
    fold_left (fun acc (e : string * Z) =>
                 match acc with
                 | Some l => pushAt (Z.to_nat (snd e - minG)) (fst e) l
                 | None => None
                 end) es (Some lv) = Some lv'
    /\ List.length lv' = List.length lv
    /\ Permutation (List.concat lv') (List.concat lv ++ map fst es).
Proof.
  revert lv. induction es as [|e es IH]; intros lv Hall; simpl.
  - exists lv. rewrite app_nil_r. auto.
  - inversion Hall as [|? ? He Hes]; subst.
    destruct (pushAt_ok _ (fst e) lv He) as [lv1 [-> [Hlen Hperm]]].
    destruct (IH lv1) as [lv' [-> [Hlen' Hperm']]].
    + rewrite Hlen. assumption.
    + exists lv'. split; [reflexivity|]. split; [congruence|].
      rewrite Hperm', Hperm. simpl. apply Permutation_middle.
Qed.

Lemma concat_repeat_nil {A : Type} (n : nat) : List.concat (repeat (@nil A) n) = [].
Proof. induction n; simpl; auto. Qed.

(** The rows hold the keys of the generation map, each once more than
    the map holds it; the number of rows is [maxG - minG + 1]. *)
Lemma initLevels_ok (gen : JS.Map Z) :
  exists lv, initLevels gen = Some lv /\ Permutation (List.concat lv) (JS.keys gen).
Proof.
  unfold initLevels. destruct (JS.values gen) as [|g0 gs] eqn:Ev.
  - exists []. split; [reflexivity|]. destruct gen; [reflexivity | discriminate].
  - set (minG := fold_left Z.min gs g0). set (maxG := fold_left Z.max gs g0).
    destruct (fold_min_le gs g0) as [Hmin0 Hmin]. destruct (fold_max_ge gs g0) as [Hmax0 Hmax].
    fold minG in Hmin0, Hmin. fold maxG in Hmax0, Hmax.
    destruct (fillRows_ok minG gen (repeat [] (Z.to_nat (maxG - minG + 1))))
      as [lv [Hlv [_ Hperm]]].
    + rewrite repeat_length.
      assert (Hin : Forall (fun g => minG <= g <= maxG) (JS.values gen)).
      { rewrite Ev. constructor; [lia|].
        rewrite Forall_forall in *. intros g Hg. split; [now apply Hmin | now apply Hmax]. }
      unfold JS.values in Hin. rewrite Forall_map in Hin.
      eapply Forall_impl; [|exact Hin]. simpl. intros e He. lia.
    + exists lv. split; [exact Hlv|].
      now rewrite Hperm, concat_repeat_nil.
Qed.

(** With every generation equal there is one row, the keys in the order
    of their assignment. *)
Lemma fillRows_flat (g : Z) (es : list (string * Z)) (row : list string) :
  Forall (fun e => snd e = g) es ->
  fold_left (fun acc (e : string * Z) =>
               match acc with
               | Some l => pushAt (Z.to_nat (snd e - g)) (fst e) l
               | None => None
               end) es (Some [row]) = Some [row ++ map fst es].
Proof.
  revert row. induction es as [|e es IH]; intros row Hall; simpl.
  - now rewrite app_nil_r.
  - inversion Hall as [|? ? He Hes]; subst.
    rewrite Z.sub_diag. simpl. rewrite IH by assumption.
    now rewrite <- app_assoc.
Qed.

Lemma fold_min_const (g : Z) (gs : list Z) :
  Forall (fun x => x = g) gs -> fold_left Z.min gs g = g.
Proof.
  induction 1 as [|x gs -> _ IH]; simpl; [reflexivity|]. now rewrite Z.min_id.
Qed.

Lemma fold_max_const (g : Z) (gs : list Z) :
  Forall (fun x => x = g) gs -> fold_left Z.max gs g = g.
Proof.
  induction 1 as [|x gs -> _ IH]; simpl; [reflexivity|]. now rewrite Z.max_id.
Qed.

Lemma initLevels_flat (gen : JS.Map Z) (g : Z) :
  gen <> [] -> Forall (fun e => snd e = g) gen ->
  initLevels gen = Some [JS.keys gen].
Proof.
  intros Hne Hall. unfold initLevels.
  assert (Hv : Forall (fun x => x = g) (JS.values gen))
    by (unfold JS.values; now rewrite Forall_map).
  destruct (JS.values gen) as [|g0 gs] eqn:Ev.
  - destruct gen; [congruence | discriminate].
  - inversion Hv as [|? ? -> Hgs]; subst.
    rewrite fold_min_const, fold_max_const by assumption.
    replace (Z.to_nat (g0 - g0 + 1)) with 1%nat by lia. simpl repeat.
    now rewrite (fillRows_flat g0 gen []).
Qed.

Lemma set_push_perm (m : JS.Map (list string)) (k x : string) :
  Permutation
    (flat_map snd
       (JS.set k (match JS.get k m with Some ids => ids | None => [] end ++ [x]) m))
    (x :: flat_map snd m).
Proof.
  induction m as [|[k' v'] m IH]; simpl.
  - reflexivity.
  - destruct (String.eqb_spec k' k) as [->|Hne]; simpl.
    + rewrite <- app_assoc. simpl. symmetry. apply Permutation_middle.
    + rewrite IH. symmetry. apply Permutation_middle.
Qed.

Lemma mapE_perm {A : Type} (f : list A -> option (list A)) (ok : A -> Prop)
      (rows : list (list A)) :
  (forall row, Forall ok row -> exists r, f row = Some r /\ Permutation r row) ->
  Forall (Forall ok) rows ->
  exists rs, mapE f rows = Some rs /\ Forall2 (@Permutation A) rs rows.
Proof.
  intros Hf. induction 1 as [|row rows Hrow Hrows IH]; simpl.
  - eauto.
  - destruct (Hf row Hrow) as [r [-> Hr]]. destruct IH as [rs [-> Hrs]]. eauto.
Qed.

Lemma Forall2_perm_concat {A : Type} (xs ys : list (list A)) :
  Forall2 (@Permutation A) xs ys -> Permutation (List.concat xs) (List.concat ys).
Proof.
  induction 1 as [|x y xs ys Hxy _ IH]; simpl; [reflexivity|].
  now apply Permutation_app.
Qed.

Lemma NoDup_app_disjoint {A : Type} (l l' : list A) (x : A) :
  NoDup (l ++ l') -> In x l -> In x l' -> False.
Proof.
  induction l as [|a l IH]; simpl; [tauto|].
  intros Hnd [->|Hin] Hin'.
  - inversion Hnd as [|? ? Hnot _]; subst. apply Hnot, in_app_iff. now right.
  - inversion Hnd; subst. auto.
Qed.

Lemma NoDup_concat_row {A : Type} (l : list (list A)) (i j : nat) (r1 r2 : list A) (x : A) :
  NoDup (List.concat l) ->
  nth_error l i = Some r1 -> nth_error l j = Some r2 ->
  In x r1 -> In x r2 -> i = j.
Proof.
  revert i j. induction l as [|row l IH]; intros i j Hnd Hi Hj H1 H2.
  - destruct i; discriminate.
  - simpl in Hnd. apply NoDup_app_remove_l in Hnd as Hl.
    assert (Hdisj : forall y r k, nth_error l k = Some r -> In y r -> In y row -> False).
    { intros y r k Hk Hy Hrow. apply (NoDup_app_disjoint _ _ y Hnd Hrow).
      apply in_concat. exists r. split; [eapply nth_error_In; eassumption | assumption]. }
    destruct i as [|i], j as [|j]; simpl in Hi, Hj.
    + reflexivity.
    + injection Hi as <-. exfalso. eapply Hdisj; eassumption.
    + injection Hj as <-. exfalso. eapply Hdisj; eassumption.
    + f_equal. eapply IH; eassumption.
Qed.

Lemma In_concat_row {A : Type} (l : list (list A)) (x : A) :
  In x (List.concat l) -> exists i row, nth_error l i = Some row /\ In x row.
Proof.
  intros H. apply in_concat in H. destruct H as [row [Hrow Hx]].
  apply In_nth_error in Hrow. destruct Hrow as [i Hi]. eauto.
Qed.

(* ================================================================== *)
(** * The engine as a whole *)
(* ================================================================== *)

Lemma refsResolve_spec (members : list FamilyMember) :
  refsResolve members = true ->
  forall a b, In (a, b) (parentEdges members) \/ In (a, b) (spouseEdges members) ->
              In a (ids members) /\ In b (ids members).
Proof.
  unfold refsResolve. rewrite forallb_forall. intros H a b Hab.
  specialize (H (a, b)). rewrite in_app_iff in H. specialize (H Hab).
  apply andb_prop in H. simpl in H. now rewrite !mem_In in H.
Qed.

Section EngineFacts.
Variable getFullYear : string -> JS.num.
Variable localeCompare : string -> string -> JS.num.

Local Abbreviation layoutOf := (buildTreeLayout getFullYear localeCompare).
Local Abbreviation fill := (fillOne getFullYear).

Lemma pickOldest_In (members : list FamilyMember) :
  members <> [] -> exists r, pickOldest getFullYear members = Some r /\ In r (ids members).
Proof.
  intros Hne. unfold pickOldest.
  match goal with |- context [JS.sortBy ?c members] => set (cmp := c) end.
  pose proof (sortBy_perm cmp members) as Hp.
  destruct (JS.sortBy cmp members) as [|m l].
  - apply Permutation_nil in Hp. congruence.
  - exists (_id m). split; [reflexivity|]. apply in_map.
    apply (Permutation_in m Hp). now left.
Qed.

Lemma byId_get (members : list FamilyMember) (id : string) :
  JS.get id (JS.ofEntries (map (fun m => (_id m, m)) members)) <> None
  <-> In id (ids members).
Proof.
  rewrite get_In_keys, In_keys_ofEntries, map_map. simpl. reflexivity.
Qed.

Lemma orderRow_ok (byId : JS.Map FamilyMember) (pE : list Edge) (row : list string) :
  Forall (fun id => JS.get id byId <> None) row ->
  exists r, orderRow getFullYear localeCompare byId pE row = Some r /\ Permutation r row.
Proof.
  intros Hrow. unfold orderRow.
  set (ok := fun id => JS.get id byId <> None) in *.
  assert (Hfam : forall fam,
    Permutation (flat_map snd (fold_left (addToFamily byId pE) row fam))
                (flat_map snd fam ++ row)).
  { clear Hrow. induction row as [|id row IH]; intros fam; simpl.
    - now rewrite app_nil_r.
    - rewrite IH. unfold addToFamily. rewrite set_push_perm. simpl.
      apply Permutation_middle. }
  specialize (Hfam []). simpl in Hfam.
  set (families := fold_left (addToFamily byId pE) row []) in *.
  assert (Hok : Forall (fun b => Forall ok (snd b)) families).
  { apply Forall_forall. intros b Hb. apply Forall_forall. intros id Hid.
    rewrite Forall_forall in Hrow. apply Hrow. apply (Permutation_in id Hfam).
    apply in_flat_map. eauto. }
  assert (Hsort : exists sb, mapE (sortBucket getFullYear localeCompare byId) families = Some sb
                             /\ Permutation (flat_map snd sb) (flat_map snd families)).
  { clear Hfam. induction Hok as [|b fam Hb _ IH]; simpl.
    - eauto.
    - unfold sortBucket at 1.
      destruct (sortByE_total (byDobThenName getFullYear localeCompare byId) ok (snd b))
        as [r [-> Hr]]; [|assumption|].
      + intros x y Hx Hy. unfold byDobThenName, ok in *.
        destruct (JS.get x byId); [|congruence]. destruct (JS.get y byId); congruence.
      + destruct IH as [sb [-> Hsb]]. eexists. split; [reflexivity|]. simpl.
        now apply Permutation_app. }
  destruct Hsort as [sb [-> Hsb]]. eexists. split; [reflexivity|].
  rewrite <- Hfam, <- Hsb. apply Permutation_flat_map. apply sortBy_perm.
Qed.

Lemma fillOne_keys byId root rootG (gen : JS.Map Z) (m : FamilyMember) :
  JS.keys (fill byId root rootG gen m)
  = if JS.has (_id m) gen then JS.keys gen else JS.keys gen ++ [_id m].
Proof.
  unfold fillOne. destruct (JS.has (_id m) gen) eqn:Eh; [reflexivity|].
  apply has_false in Eh.
  destruct (relDeltaFromRoot (relationship m)); now rewrite keys_set_fresh.
Qed.

Lemma fill_keys byId root rootG (members : list FamilyMember) (gen : JS.Map Z) :
  NoDup (JS.keys gen) ->
  NoDup (JS.keys (fold_left (fill byId root rootG) members gen))
  /\ forall k, In k (JS.keys (fold_left (fill byId root rootG) members gen))
               <-> In k (JS.keys gen) \/ In k (ids members).
Proof.
  revert gen. induction members as [|m members IH]; intros gen Hnd; simpl.
  - split; [assumption | tauto].
  - destruct (IH (fill byId root rootG gen m)) as [H1 H2].
    + rewrite fillOne_keys. destruct (JS.has (_id m) gen) eqn:Eh; [assumption|].
      apply has_false in Eh. apply NoDup_app; [assumption | repeat constructor; simpl; tauto|].
      intros x Hx [<-|[]]. contradiction.
    + split; [assumption|]. intros k. rewrite H2, fillOne_keys.
      destruct (JS.has (_id m) gen) eqn:Eh.
      * apply has_In_keys in Eh. intuition (subst; auto).
      * rewrite in_app_iff. simpl. intuition auto.
Qed.

(** Where the traversal reached every member the fill changes nothing. *)
Lemma fill_none byId root rootG (members : list FamilyMember) (gen : JS.Map Z) :
  (forall k, In k (ids members) -> In k (JS.keys gen)) ->
  fold_left (fill byId root rootG) members gen = gen.
Proof.
  induction members as [|m members IH]; intros Hall; simpl; [reflexivity|].
  assert (Hm : JS.has (_id m) gen = true) by (apply has_In_keys, Hall; now left).
  unfold fillOne at 2. rewrite Hm. apply IH. intros k Hk. apply Hall. now right.
Qed.

Lemma selectRoots_In (members : list FamilyMember) (pE : list Edge) (root : string) :
  In root (ids members) ->
  forall r, In r (selectRoots members pE root) -> In r (ids members).
Proof.
  intros Hroot r. unfold selectRoots.
  destruct (candidateRoots members pE) as [|c cs] eqn:Ec.
  - intros [<-|[]]. assumption.
  - rewrite <- Ec. unfold candidateRoots. rewrite filter_In. tauto.
Qed.

(** The traversal assigns only roots and endpoints of edges, each once. *)
Lemma assignGenerations_keys (pE sE : list Edge) (roots : list string) :
  NoDup (JS.keys (assignGenerations pE sE roots))
  /\ (forall k, In k (JS.keys (assignGenerations pE sE roots)) ->
                In k (universe pE sE roots))
  /\ (forall r, In r roots -> In r (JS.keys (assignGenerations pE sE roots))).
Proof.
  unfold assignGenerations.
  pose proof (bfsLoop_inv pE sE roots (bfsFuel pE sE roots) _ (bfsInit_inv pE sE roots))
    as [Hk Hnd _ Hs Hr].
  pose proof (bfs_drains pE sE roots) as Hq.
  rewrite <- Hk. split; [assumption|]. split; [assumption|].
  intros r Hin. destruct (Hr r Hin) as [H|H]; [assumption|].
  rewrite Hq in H. contradiction.
Qed.

Lemma generations_keys (members : list FamilyMember) (root : string) :
  refsResolve members = true -> In root (ids members) ->
  NoDup (JS.keys (generations getFullYear members root))
  /\ forall k, In k (JS.keys (generations getFullYear members root)) <-> In k (ids members).
Proof.
  intros Hres Hroot. unfold generations.
  set (pE := parentEdges members). set (sE := spouseEdges members).
  set (roots := selectRoots members pE root).
  destruct (assignGenerations_keys pE sE roots) as [Hnd [HU _]].
  match goal with |- context [fold_left (fill ?b ?r ?g) members ?gen] =>
    destruct (fill_keys b r g members gen Hnd) as [H1 H2] end.
  split; [assumption|]. intros k. rewrite H2. split; [|auto].
  intros [Hk|Hk]; [|assumption]. apply HU in Hk.
  unfold universe in Hk. rewrite !in_app_iff, !in_map_iff in Hk.
  destruct Hk as [Hk|[[[a b] [<- He]]|[[[a b] [<- He]]|[[[a b] [<- He]]|[[a b] [<- He]]]]]]; simpl.
  - eapply selectRoots_In; eassumption.
  - apply (refsResolve_spec members Hres a b). now left.
  - apply (refsResolve_spec members Hres a b). now left.
  - apply (refsResolve_spec members Hres a b). now right.
  - apply (refsResolve_spec members Hres a b). now right.
Qed.

(** The engine returns, and its rows hold each member identifier once
    and nothing else, as soon as no reference dangles. *)
Lemma layout_rows (members : list FamilyMember) :
  members <> [] -> refsResolve members = true ->
  exists L, layoutOf members = Some L
            /\ NoDup (List.concat (levels L))
            /\ (forall id, In id (List.concat (levels L)) <-> In id (ids members))
            /\ sEdges L = spouseEdges members.
Proof.
  intros Hne Hres. unfold buildTreeLayout.
  destruct members as [|m0 ms] eqn:Em; [congruence|]. rewrite <- Em in *.
  destruct (pickOldest_In members Hne) as [root [-> Hroot]].
  destruct (generations_keys members root Hres Hroot) as [Hnd Hkeys].
  destruct (initLevels_ok (generations getFullYear members root)) as [rows [-> Hrows]].
  set (byId := JS.ofEntries (map (fun m => (_id m, m)) members)).
  destruct (mapE_perm (orderRow getFullYear localeCompare byId (parentEdges members))
                      (fun id => JS.get id byId <> None) rows) as [ordered [-> Hord]].
  - intros row. apply orderRow_ok.
  - apply Forall_forall. intros row Hrow. apply Forall_forall. intros id Hid.
    apply byId_get, Hkeys. apply (Permutation_in id Hrows).
    apply in_concat. eauto.
  - apply Forall2_perm_concat in Hord.
    eexists. split; [reflexivity|]. simpl.
    assert (Hp : Permutation (List.concat ordered)
                             (JS.keys (generations getFullYear members root)))
      by now rewrite Hord.
    split; [|split; [|reflexivity]].
    + apply (Permutation_NoDup (Permutation_sym Hp) Hnd).
    + intros id. rewrite <- Hkeys. split; apply Permutation_in; [assumption | now symmetry].
Qed.
End EngineFacts.

(* ================================================================== *)
(** * The lexicon: the row for great-grandchildren is never reached *)
(* ================================================================== *)

Lemma matchLit_append (l : string) (prev : option ascii) (s : string) p' s' :
  JS.matchLit l prev s = Some (p', s') -> s = String.append l s'.
Proof.
  revert prev s. induction l as [|a l IH]; intros prev s; simpl.
  - now intros [= _ ->].
  - destruct s as [|c s]; [discriminate|].
    destruct (Ascii.eqb_spec a c) as [->|]; [|discriminate].
    intros H. apply IH in H. now rewrite H.
Qed.

Lemma grandYounger_prev (p p' : option ascii) (s : string) :
  JS.rmatch grandYounger p s JS.accept = JS.rmatch grandYounger p' s JS.accept.
Proof. destruct s; reflexivity. Qed.

Lemma testFrom_unfold (r : JS.regex) (prev : option ascii) (s : string) :
  JS.testFrom r prev s
  = JS.rmatch r prev s JS.accept
    || match s with
       | String c s' => JS.testFrom r (Some c) s'
       | EmptyString => false
       end.
Proof. destruct s; reflexivity. Qed.

Lemma grandYounger_skip (pre s : string) (p prev : option ascii) :
  JS.rmatch grandYounger p s JS.accept = true ->
  JS.testFrom grandYounger prev (String.append pre s) = true.
Proof.
  revert prev. induction pre as [|c pre IH]; intros prev H.
  - simpl String.append. rewrite testFrom_unfold, (grandYounger_prev prev p), H. reflexivity.
  - simpl String.append. rewrite testFrom_unfold, IH by assumption. apply orb_true_r.
Qed.

Lemma greatGrandYounger_head (prev : option ascii) (s : string) :
  JS.rmatch greatGrandYounger prev s JS.accept = true ->
  JS.testFrom grandYounger prev s = true.
Proof.
  unfold greatGrandYounger. cbn [JS.rmatch].
  destruct (JS.matchLit "great" prev s) as [[p1 s1]|] eqn:E; [|discriminate].
  apply matchLit_append in E. subst s.
  unfold sepOpt. cbn [JS.rmatch]. intros H. apply orb_prop in H. destruct H as [H|H].
  - destruct s1 as [|d s2]; [discriminate|]. apply andb_prop in H. destruct H as [_ H].
    replace (String.append "great" (String d s2))
      with (String.append (String.append "great" (String d "")) s2) by reflexivity.
    eapply grandYounger_skip. exact H.
  - eapply grandYounger_skip. exact H.
Qed.

Lemma greatGrandYounger_shadowed (prev : option ascii) (s : string) :
  JS.testFrom greatGrandYounger prev s = true -> JS.testFrom grandYounger prev s = true.
Proof.
  revert prev. induction s as [|c s IH]; intros prev.
  - rewrite testFrom_unfold. rewrite orb_false_r. apply greatGrandYounger_head.
  - rewrite testFrom_unfold. intros H. apply orb_prop in H. destruct H as [H|H].
    + now apply greatGrandYounger_head.
    + rewrite testFrom_unfold. rewrite (IH _ H). apply orb_true_r.
Qed.

(* ================================================================== *)
(** * Properties of the relationship lexicon *)
(* ================================================================== *)

(** C4. The lexicon does not reach offset -3: a label that matches the
    great-grandchild pattern matches [/grand(son|daughter|child)/]
    too, and that pattern is tested first.  "great-grandson",
    "great-granddaughter" and "great-grandchild" all get -2, and no
    label at all gets -3. *)
Theorem great_grandchild_row_unreachable :
  relDeltaFromRoot "great-grandson" = Some (-2)
  /\ relDeltaFromRoot "great-granddaughter" = Some (-2)
  /\ relDeltaFromRoot "great-grandchild" = Some (-2)
  /\ forall rel, relDeltaFromRoot rel <> Some (-3).
Proof.
  repeat split; try reflexivity.
  intros rel. unfold relDeltaFromRoot, lexicon. cbn [firstMatch].
  repeat match goal with
         | |- (if JS.test ?r ?s then _ else _) <> _ =>
             let E := fresh "E" in destruct (JS.test r s) eqn:E; [discriminate|]
         end.
  destruct (JS.test greatGrandYounger (JS.toLowerCase rel)) eqn:E5.
  - apply greatGrandYounger_shadowed in E5. unfold JS.test in E4. congruence.
  - repeat match goal with
           | |- (if JS.test ?r ?s then _ else _) <> _ => destruct (JS.test r s)
           end; discriminate.
Qed.

(** C5, as stated, fails: "Great-Grandfather" does not resolve to +3. *)
Lemma great_grandfather_is_not_3 :
  relDeltaFromRoot "Great-Grandfather" = Some 2
  /\ relDeltaFromRoot "Great-Grandfather" <> Some 3.
Proof. split; [reflexivity | discriminate]. Qed.

(** C5, amended. A label that reads "great-grandfather" in whatever
    letter case resolves to the +2 tier of the great-grand pattern; it
    does not fall through to the +1 of the plain grandfather pattern. *)
Theorem great_grandfather_is_2 (rel : string) :
  JS.toLowerCase rel = "great-grandfather" ->
  relDeltaFromRoot rel = Some 2 /\ relDeltaFromRoot rel <> Some 1.
Proof.
  intros H. unfold relDeltaFromRoot. rewrite H. split; [reflexivity | discriminate].
Qed.

Lemma great_grandfather_is_2_witness :
  relDeltaFromRoot "Great-Grandfather" = Some 2
  /\ relDeltaFromRoot "Great-Grandfather" <> Some 1.
Proof. apply (great_grandfather_is_2 "Great-Grandfather"). reflexivity. Defined.

(* ================================================================== *)
(** * Properties of the graph builder *)
(* ================================================================== *)

Lemma truthyId_In (o : option string) (p : string) :
  In p (truthyId o) <-> o = Some p /\ p <> "".
Proof.
  unfold truthyId. destruct o as [s|]; simpl.
  - destruct (String.eqb_spec s "") as [->|Hne]; simpl.
    + split; [tauto | intros [[= <-] H]; congruence].
    + split; [intros [->|[]]; auto | intros [[= ->] _]; auto].
  - split; [tauto | intros [H _]; discriminate].
Qed.

Lemma parentEdges_In (members : list FamilyMember) (p c : string) :
  In (p, c) (parentEdges members) <->
  exists m, In m members
            /\ ((p = _id m /\ In c (orEmpty (childrenIds m)))
                \/ (c = _id m /\ p <> "" /\ (fatherId m = Some p \/ motherId m = Some p))).
Proof.
  unfold parentEdges. rewrite in_flat_map. split.
  - intros [m [Hm H]]. exists m. split; [assumption|].
    unfold memberPEdges in H. rewrite !in_app_iff, !in_map_iff in H.
    destruct H as [[x [[= <- <-] Hx]]|[[x [[= <- <-] Hx]]|[x [[= <- <-] Hx]]]].
    + left. auto.
    + apply truthyId_In in Hx. right. tauto.
    + apply truthyId_In in Hx. right. tauto.
  - intros [m [Hm H]]. exists m. split; [assumption|].
    unfold memberPEdges. rewrite !in_app_iff, !in_map_iff.
    destruct H as [[-> Hc]|[-> [Hne [Hf|Hf]]]].
    + left. eauto.
    + right. left. exists p. split; [reflexivity|]. apply truthyId_In. auto.
    + right. right. exists p. split; [reflexivity|]. apply truthyId_In. auto.
Qed.

Lemma spouseEdges_In (members : list FamilyMember) (a b : string) :
  In (a, b) (spouseEdges members) <->
  exists m, In m members /\ a = _id m /\ In b (orEmpty (spouseIds m))
            /\ String.ltb a b = true.
Proof.
  unfold spouseEdges. rewrite in_flat_map. split.
  - intros [m [Hm H]]. exists m. unfold memberSEdges in H.
    rewrite in_map_iff in H. destruct H as [s [[= <- <-] Hs]].
    apply filter_In in Hs. tauto.
  - intros [m [Hm [-> [Hb Hlt]]]]. exists m. split; [assumption|].
    unfold memberSEdges. apply in_map. apply filter_In. auto.
Qed.

(** A father reference to an identifier that is not in the collection
    yields a parent edge from that identifier. *)
Lemma dangling_father_keeps_edge :
  parentEdges danglingFather = [("x", "b")] /\ ~ In "x" (ids danglingFather).
Proof.
  split; [reflexivity|]. simpl. intros [H|[]]. discriminate.
Qed.

(** What the graph builder emits, reference by reference. A parent
    edge is exactly a pair (member, listed child) or (non-empty father
    or mother identifier, member); a spouse edge is exactly a pair
    (member, listed spouse) with the member's identifier the smaller.
    Whether the identifier referred to belongs to a member is not
    looked at. *)
Theorem edges_keep_every_reference (members : list FamilyMember) :
  (forall p c,
      In (p, c) (parentEdges members) <->
      exists m, In m members
                /\ ((p = _id m /\ In c (orEmpty (childrenIds m)))
                    \/ (c = _id m /\ p <> ""
                        /\ (fatherId m = Some p \/ motherId m = Some p))))
  /\ (forall a b,
         In (a, b) (spouseEdges members) <->
         exists m, In m members /\ a = _id m /\ In b (orEmpty (spouseIds m))
                   /\ String.ltb a b = true)
  /\ (forall a b,
         In (a, b) (parentEdges members ++ spouseEdges members) ->
         In a (ids members) \/ In b (ids members)).
Proof.
  split; [|split].
  - apply parentEdges_In.
  - apply spouseEdges_In.
  - intros a b H. apply in_app_iff in H. destruct H as [H|H].
    + apply parentEdges_In in H. destruct H as [m [Hm [[-> _]|[-> _]]]].
      * left. now apply in_map.
      * right. now apply in_map.
    + apply spouseEdges_In in H. destruct H as [m [Hm [-> _]]].
      left. now apply in_map.
Qed.

(* ================================================================== *)
(** * Properties of the generation worklist *)
(* ================================================================== *)

(** C9. For any edge lists and roots, cyclic or not, the worklist
    drains within [bfsFuel] turns, after which the loop has stopped
    for good; every turn either leaves the generation map alone or
    adds one entry for an identifier that had none; a turn that takes
    an identifier already seen off the queue changes nothing else and
    pushes nothing. So no generation is ever overwritten: what an
    identifier was first given is what it has at the end, and the
    assigned identifiers are distinct. *)
Theorem worklist_terminates_first_assignment_wins
        (pE sE : list Edge) (roots : list string) :
  let run n := bfsLoop pE sE n (bfsInit roots) in
  queue (run (bfsFuel pE sE roots)) = []
  /\ (forall n, (bfsFuel pE sE roots <= n)%nat -> run n = run (bfsFuel pE sE roots))
  /\ (forall n st', bfsStep pE sE (run n) = Some st' -> assignsFresh (run n) st')
  /\ (forall n id g q, queue (run n) = (id, g) :: q -> In id (seen (run n)) ->
                       bfsStep pE sE (run n) = Some (mkBfs q (seen (run n)) (gen (run n))))
  /\ (forall n id g, JS.get id (gen (run n)) = Some g ->
                     JS.get id (assignGenerations pE sE roots) = Some g)
  /\ NoDup (JS.keys (assignGenerations pE sE roots)).
Proof.
  intros run.
  assert (Hinv : forall n, bfsInv pE sE roots (run n))
    by (intros n; apply bfsLoop_inv, bfsInit_inv).
  assert (Hdrain : queue (run (bfsFuel pE sE roots)) = []) by apply bfs_drains.
  assert (Hstable : forall n, (bfsFuel pE sE roots <= n)%nat ->
                              run n = run (bfsFuel pE sE roots)).
  { intros n Hn. replace n with (bfsFuel pE sE roots + (n - bfsFuel pE sE roots))%nat by lia.
    unfold run. rewrite bfsLoop_add. now apply bfsLoop_stopped. }
  assert (Hstep : forall n st', bfsStep pE sE (run n) = Some st' -> assignsFresh (run n) st')
    by (intros n st' H; now apply (bfsStep_spec pE sE roots (run n) st' (Hinv n))).
  assert (Hmono : forall k n id g, JS.get id (gen (run n)) = Some g ->
                                   JS.get id (gen (run (n + k)%nat)) = Some g).
  { induction k as [|k IH]; intros n id g Hg.
    - now rewrite Nat.add_0_r.
    - replace (n + S k)%nat with ((n + k) + 1)%nat by lia.
      specialize (IH n id g Hg). unfold run in *. rewrite bfsLoop_add. simpl.
      destruct (bfsStep pE sE (bfsLoop pE sE (n + k) (bfsInit roots))) as [st'|] eqn:E;
        [|assumption].
      destruct (Hstep (n + k)%nat st' E) as [->|[id' [g' [Hfresh ->]]]]; [assumption|].
      fold (run (n + k)%nat) in *.
      destruct (String.eqb_spec id id') as [->|Hne].
      + exfalso. apply Hfresh. apply get_In_keys. congruence.
      + rewrite <- set_fresh by assumption. now rewrite get_set_other. }
  repeat split; try assumption.
  - intros n id g q Hq Hseen. unfold bfsStep. rewrite Hq.
    apply mem_In in Hseen. now rewrite Hseen.
  - intros n id g Hg. unfold assignGenerations. fold (run (bfsFuel pE sE roots)).
    destruct (Nat.le_ge_cases n (bfsFuel pE sE roots)) as [Hle|Hge].
    + replace (bfsFuel pE sE roots) with (n + (bfsFuel pE sE roots - n))%nat by lia.
      now apply Hmono.
    + rewrite <- (Hstable n Hge). assumption.
  - apply assignGenerations_keys.
Qed.

(* ================================================================== *)
(** * Spouse edges *)
(* ================================================================== *)

Lemma listsSpouse_spec (members : list FamilyMember) (a b : string) :
  listsSpouse members a b = true <->
  exists m, In m members /\ a = _id m /\ In b (orEmpty (spouseIds m)).
Proof.
  unfold listsSpouse. rewrite existsb_exists. split.
  - intros [m [Hm H]]. apply andb_prop in H. destruct H as [H1 H2].
    apply String.eqb_eq in H1. apply mem_In in H2. eauto.
  - intros [m [Hm [-> Hb]]]. exists m. split; [assumption|].
    rewrite String.eqb_refl. simpl. now apply mem_In.
Qed.

Lemma ltb_asym (a b : string) : String.ltb a b = true -> String.ltb b a = false.
Proof.
  unfold String.ltb. rewrite (String.compare_antisym b a).
  destruct (String.compare a b); simpl; congruence.
Qed.

Lemma NoDup_map_pair (a : string) (l : list string) :
  NoDup l -> NoDup (map (fun s => (a, s)) l).
Proof.
  induction 1 as [|x l Hx _ IH]; simpl; constructor; [|assumption].
  rewrite in_map_iff. intros [y [[= ->] Hy]]. contradiction.
Qed.

Lemma spouseEdges_NoDup (members : list FamilyMember) :
  NoDup (ids members) ->
  (forall m, In m members -> NoDup (orEmpty (spouseIds m))) ->
  NoDup (spouseEdges members).
Proof.
  induction members as [|m members IH]; intros Hids Hsp; simpl; [constructor|].
  inversion Hids as [|? ? Hnot Hids']; subst.
  apply NoDup_app.
  - unfold memberSEdges. apply NoDup_map_pair, NoDup_filter, Hsp. now left.
  - apply IH; [assumption|]. intros m' Hm'. apply Hsp. now right.
  - intros [a b] H1 H2. apply Hnot.
    unfold memberSEdges in H1. apply in_map_iff in H1. destruct H1 as [s [[= <- <-] _]].
    apply spouseEdges_In in H2. destruct H2 as [m' [Hm' [-> _]]].
    now apply in_map.
Qed.

Section OutputEdges.
Variable getFullYear : string -> JS.num.
Variable localeCompare : string -> string -> JS.num.

(** The spouse edges of the result are those of the graph builder. *)
Lemma layout_sEdges (members : list FamilyMember) (L : Layout) :
  buildTreeLayout getFullYear localeCompare members = Some L ->
  sEdges L = spouseEdges members.
Proof.
  unfold buildTreeLayout. destruct members as [|m0 ms] eqn:Em.
  - now intros [= <-].
  - rewrite <- Em. destruct (pickOldest _ _); [|discriminate].
    destruct (initLevels _); [|discriminate].
    destruct (mapE _ _); [|discriminate]. now intros [= <-].
Qed.

(** C8, amended. With unique member identifiers and no identifier
    twice in a spouse list, as the data model has them: for identifiers a < b, the
    spouse edges of the result that join a and b, in either direction,
    number exactly one when the member a lists b among its spouses,
    and none otherwise. Whether b lists a as well changes nothing, so
    a pair that lists each other gets one edge, not two. *)
Theorem one_spouse_edge_per_pair (members : list FamilyMember) (L : Layout) (a b : string) :
  buildTreeLayout getFullYear localeCompare members = Some L ->
  NoDup (ids members) ->
  (forall m, In m members -> NoDup (orEmpty (spouseIds m))) ->
  String.ltb a b = true ->
  (count_occ Edge_dec (sEdges L) (a, b) + count_occ Edge_dec (sEdges L) (b, a))%nat
  = if listsSpouse members a b then 1%nat else 0%nat.
Proof.
  intros HL Hids Hsp Hlt. rewrite (layout_sEdges members L HL).
  assert (Hba : count_occ Edge_dec (spouseEdges members) (b, a) = 0%nat).
  { apply count_occ_not_In. rewrite spouseEdges_In. intros [m [_ [_ [_ H]]]].
    apply ltb_asym in Hlt. congruence. }
  rewrite Hba, Nat.add_0_r.
  destruct (listsSpouse members a b) eqn:El.
  - apply (proj1 (NoDup_count_occ' Edge_dec _) (spouseEdges_NoDup members Hids Hsp)).
    apply listsSpouse_spec in El. destruct El as [m [Hm [Ha Hb]]].
    apply spouseEdges_In. eauto.
  - apply count_occ_not_In. rewrite spouseEdges_In. intros [m [Hm [Ha [Hb _]]]].
    assert (listsSpouse members a b = true) by (apply listsSpouse_spec; eauto).
    congruence.
Qed.
End OutputEdges.

Lemma one_spouse_edge_per_pair_witness :
  let L := mkLayout [["a"; "b"]] [] [("a", "b")] in
  (count_occ Edge_dec (sEdges L) ("a", "b") + count_occ Edge_dec (sEdges L) ("b", "a"))%nat
  = 1%nat.
Proof.
  intros L.
  apply (one_spouse_edge_per_pair Host.getFullYear Host.localeCompare couple L "a" "b").
  - reflexivity.
  - repeat constructor; simpl; intuition discriminate.
  - intros m [<-|[<-|[]]]; simpl; repeat constructor; simpl; tauto.
  - reflexivity.
Defined.

(* ================================================================== *)
(** * Without parent edges every generation is 0 *)
(* ================================================================== *)

Lemma set_allZero (k : string) (m : JS.Map Z) : allZero m -> allZero (JS.set k 0 m).
Proof.
  unfold allZero. induction 1 as [|[k' v'] m Hv Hm IH]; simpl.
  - repeat constructor.
  - destruct (String.eqb k' k); constructor; simpl; auto.
Qed.

Lemma bfsStep_allZero (sE : list Edge) (st st' : bfsState) :
  bfsStep [] sE st = Some st' ->
  allZero (queue st) -> allZero (gen st) -> allZero (queue st') /\ allZero (gen st').
Proof.
  unfold bfsStep. destruct (queue st) as [|[id g] q]; [discriminate|].
  intros H Hq Hg. inversion Hq as [|? ? Hg0 Hq']; subst. simpl in Hg0. subst g.
  destruct (JS.mem id (seen st)); injection H as <-; simpl.
  - auto.
  - split; [|now apply set_allZero].
    apply Forall_app. split; [assumption|]. apply Forall_forall. intros [x gx] Hx.
    apply pushes_spec in Hx. simpl.
    destruct Hx as [_ [[[] _]|[[[] _]|[_ ->]]]]. reflexivity.
Qed.

Lemma bfsLoop_allZero (sE : list Edge) (n : nat) (st : bfsState) :
  allZero (queue st) -> allZero (gen st) -> allZero (gen (bfsLoop [] sE n st)).
Proof.
  revert st. induction n as [|n IH]; intros st Hq Hg; simpl; [assumption|].
  destruct (bfsStep [] sE st) as [st'|] eqn:E; [|assumption].
  destruct (bfsStep_allZero sE st st' E Hq Hg). now apply IH.
Qed.

Lemma assignGenerations_allZero (sE : list Edge) (roots : list string) :
  allZero (assignGenerations [] sE roots).
Proof.
  unfold assignGenerations. apply bfsLoop_allZero; simpl; [|constructor].
  unfold allZero. rewrite Forall_map. apply Forall_forall. reflexivity.
Qed.

Lemma mapE_length {A B : Type} (f : A -> option B) (l : list A) (r : list B) :
  mapE f l = Some r -> List.length r = List.length l.
Proof.
  revert r. induction l as [|x l IH]; intros r; simpl.
  - now intros [= <-].
  - destruct (f x); [|discriminate]. destruct (mapE f l); [|discriminate].
    intros [= <-]. simpl. f_equal. now apply IH.
Qed.

Lemma find_last {A : Type} (p : A -> bool) (l : list A) (x : A) :
  find p (l ++ [x])
  = match find p l with Some y => Some y | None => if p x then Some x else None end.
Proof.
  induction l as [|y l IH]; simpl; [reflexivity|]. destruct (p y); auto.
Qed.

(** [new Map(members.map(m => [m._id, m]))]: of two members with one
    identifier the later one is the entry. *)
Lemma byId_last (members : list FamilyMember) (M : JS.Map FamilyMember) (id : string) :
  JS.get id (fold_left (fun m e => JS.set (fst e) (snd e) m)
                       (map (fun m => (_id m, m)) members) M)
  = match find (fun m => String.eqb (_id m) id) (rev members) with
    | Some m => Some m
    | None => JS.get id M
    end.
Proof.
  revert M. induction members as [|m members IH]; intros M; simpl; [reflexivity|].
  rewrite IH, find_last. destruct (find _ (rev members)); [reflexivity|].
  destruct (String.eqb_spec (_id m) id) as [<-|Hne].
  - apply get_set_same.
  - apply get_set_other. congruence.
Qed.

(* ================================================================== *)
(** * Properties of the layout *)
(* ================================================================== *)

Section LayoutProperties.
Variable getFullYear : string -> JS.num.
Variable localeCompare : string -> string -> JS.num.

Local Abbreviation layoutOf := (buildTreeLayout getFullYear localeCompare).

(** Runs the engine on a sample input whatever the host: the fallback
    root is some member, and nothing else of the host is consulted. *)
Ltac run_engine members :=
  let r := fresh "r" in
  destruct (pickOldest_In getFullYear members) as [r [Hr _]]; [discriminate|];
  unfold buildTreeLayout, generations; unfold members in *; rewrite Hr; clear Hr;
  vm_compute; reflexivity.

(** X1. Where no reference that reaches an edge dangles, the partition of
    C1 holds: for every such non-empty collection with unique
    identifiers the engine returns a layout whose rows together are a
    rearrangement of the member identifiers, every identifier sits in
    exactly one row, and no row holds anything else. *)
Theorem rows_partition_members (members : list FamilyMember) :
  members <> [] -> NoDup (ids members) -> refsResolve members = true ->
  exists L, layoutOf members = Some L
            /\ Permutation (List.concat (levels L)) (ids members)
            /\ (forall id, In id (ids members) ->
                           exists! i, exists row, nth_error (levels L) i = Some row
                                                  /\ In id row)
            /\ (forall row id, In row (levels L) -> In id row -> In id (ids members)).
Proof.
  intros Hne Hids Hres.
  destruct (layout_rows getFullYear localeCompare members Hne Hres)
    as [L [HL [Hnd [Hin _]]]].
  exists L. split; [assumption|]. split; [|split].
  - apply NoDup_Permutation; assumption.
  - intros id Hid. apply Hin in Hid. destruct (In_concat_row _ _ Hid) as [i [row [Hi Hrow]]].
    exists i. split; [eauto|]. intros j [row' [Hj Hrow']].
    eapply NoDup_concat_row; eassumption.
  - intros row id Hrow Hid. apply Hin. apply in_concat. eauto.
Qed.

(** C1. The partition fails on a reference that dangles. A listed
    child that is not in the collection is reached by the traversal,
    gets a generation and a place in a row, although the rows are read
    as member identifiers ([byId.get(a)!]); with two such children in
    one row the comparator reads [dateOfBirth] of a member that does
    not exist, and the engine throws. *)
Theorem dangling_child_enters_rows :
  danglingChild <> [] /\ NoDup (ids danglingChild)
  /\ layoutOf danglingChild = Some (mkLayout [["x"]; ["a"]] [("a", "x")] [])
  /\ ~ In "x" (ids danglingChild)
  /\ NoDup (ids danglingChildren)
  /\ generations getFullYear danglingChildren "a" = [("a", 0); ("x", -1); ("y", -1)]
  /\ layoutOf danglingChildren = None.
Proof.
  split; [discriminate|]. split; [repeat constructor; simpl; tauto|].
  split; [reflexivity|]. split; [simpl; intros [H|[]]; discriminate|].
  split; [repeat constructor; simpl; tauto|]. split; reflexivity.
Qed.

(** C3. Without any explicit parent edge the layout has one row and
    no parent-child edge at all: every member is a root at generation
    0, so there is no pair of adjacent rows to connect, and the
    relationship labels are never consulted. For the three members
    labelled "Grandfather", "Father", "Son" this is one row of three
    and no edge, not three rows and two edges. *)
Theorem no_parent_edges_one_row (members : list FamilyMember) (L : Layout) :
  members <> [] -> parentEdges members = [] -> layoutOf members = Some L ->
  List.length (levels L) = 1%nat /\ pEdges L = [].
Proof.
  intros Hne HpE. unfold buildTreeLayout.
  destruct members as [|m0 ms] eqn:Em; [congruence|]. rewrite <- Em in *.
  destruct (pickOldest getFullYear members) as [root|]; [|discriminate].
  assert (Hgen : exists ks, ks <> []
                            /\ initLevels (generations getFullYear members root) = Some [ks]).
  { unfold generations. rewrite HpE.
    set (sE := spouseEdges members).
    assert (Hroots : selectRoots members [] root = ids members).
    { unfold selectRoots, candidateRoots. simpl.
      rewrite (proj2 (filter_ext_in_iff _ (fun _ => true) (ids members)))
        by reflexivity.
      assert (Hf : forall l : list string, filter (fun _ => true) l = l)
        by (induction l; simpl; congruence).
      rewrite Hf. unfold ids. rewrite Em. reflexivity. }
    rewrite Hroots.
    destruct (assignGenerations_keys [] sE (ids members)) as [_ [_ Hall]].
    rewrite fill_none by assumption.
    exists (JS.keys (assignGenerations [] sE (ids members))). split.
    - intros Hnil. specialize (Hall (_id m0)). rewrite Hnil, Em in Hall.
      apply Hall. now left.
    - apply (initLevels_flat _ 0); [|apply assignGenerations_allZero].
      intros Hnil. specialize (Hall (_id m0)). rewrite Hnil, Em in Hall.
      apply Hall. now left. }
  destruct Hgen as [ks [_ ->]]. rewrite HpE.
  destruct (mapE _ [ks]) as [ordered|] eqn:Eo; [|discriminate].
  apply mapE_length in Eo. intros [= <-]. simpl.
  destruct ordered as [|r [|r' ordered]]; try discriminate. auto.
Qed.

(** C6, amended. For Ann (1, born 1940), Bob (2, born 1965, mother
    1) and Cid (3, born 1990, father 2): the one root is 1, whatever
    the fallback root; the rows are [[3],[2],[1]], the youngest row
    first; the parent-child edges are 1 -> 2 and 2 -> 3, and there is
    no spouse edge. *)
Theorem scenario_layout :
  (forall fallbackRoot,
      selectRoots scenario (parentEdges scenario) fallbackRoot = ["1"])
  /\ (forall fallbackRoot,
         generations getFullYear scenario fallbackRoot = [("1", 0); ("2", -1); ("3", -2)])
  /\ layoutOf scenario
     = Some (mkLayout [["3"]; ["2"]; ["1"]] [("1", "2"); ("2", "3")] []).
Proof.
  split; [|split].
  - reflexivity.
  - intros r. vm_compute. reflexivity.
  - run_engine scenario.
Qed.

(** C7, amended. Two members with one identifier raise no error. As
    long as no reference that reaches an edge dangles, the engine
    returns a layout in which every identifier, the repeated one
    included, sits in the rows once; of the members that share an
    identifier the lookup table keeps the last. *)
Theorem duplicate_ids_raise_no_error (members : list FamilyMember) :
  ~ NoDup (ids members) -> refsResolve members = true ->
  exists L, layoutOf members = Some L
            /\ NoDup (List.concat (levels L))
            /\ (forall id, In id (List.concat (levels L)) <-> In id (ids members))
            /\ (forall id, JS.get id (JS.ofEntries (map (fun m => (_id m, m)) members))
                           = find (fun m => String.eqb (_id m) id) (rev members)).
Proof.
  intros Hdup Hres.
  assert (Hne : members <> []) by (intros ->; apply Hdup; constructor).
  destruct (layout_rows getFullYear localeCompare members Hne Hres)
    as [L [HL [Hnd [Hin _]]]].
  exists L. repeat split; try assumption; try (now apply Hin).
  intros id. unfold JS.ofEntries. rewrite byId_last.
  now destruct (find _ (rev members)).
Qed.

(** C10. The rows of the result can be empty. In [sparse] the one
    root, which is the fallback root too, sits at generation 0; the two
    members no root reaches are placed by their labels at 3 and 1; and
    the four rows allocated for generations 0 to 3 include one, for
    generation 2, that holds nobody. *)
Theorem sparse_generations_leave_an_empty_row :
  pickOldest getFullYear sparse = Some "a"
  /\ assignGenerations (parentEdges sparse) (spouseEdges sparse)
                    (selectRoots sparse (parentEdges sparse) "a") = [("a", 0)]
  /\ generations getFullYear sparse "a" = [("a", 0); ("b", 3); ("c", 1)]
  /\ exists L, layoutOf sparse = Some L
               /\ levels L = [["a"]; ["c"]; []; ["b"]]
               /\ In [] (levels L).
Proof.
  split; [reflexivity|]. split; [reflexivity|]. split; [reflexivity|].
  eexists. split; [vm_compute; reflexivity|]. simpl. split; [reflexivity | tauto].
Qed.
End LayoutProperties.

Lemma rows_partition_members_witness :
  exists L, Host.layout scenario = Some L
            /\ Permutation (List.concat (levels L)) (ids scenario)
            /\ (forall id, In id (ids scenario) ->
                           exists! i, exists row, nth_error (levels L) i = Some row
                                                  /\ In id row)
            /\ (forall row id, In row (levels L) -> In id row -> In id (ids scenario)).
Proof.
  apply (rows_partition_members Host.getFullYear Host.localeCompare scenario).
  - discriminate.
  - repeat constructor; simpl; intuition discriminate.
  - reflexivity.
Defined.

Lemma no_parent_edges_one_row_witness :
  List.length (levels (mkLayout [["a"; "b"; "c"]] [] [])) = 1%nat
  /\ pEdges (mkLayout [["a"; "b"; "c"]] [] []) = [].
Proof.
  apply (no_parent_edges_one_row Host.getFullYear Host.localeCompare unlinked).
  - discriminate.
  - reflexivity.
  - reflexivity.
Defined.

(** C6, as stated, fails: the rows are not [[1],[2],[3]]. *)
Lemma scenario_rows_youngest_first :
  exists L, Host.layout scenario = Some L
            /\ levels L = [["3"]; ["2"]; ["1"]]
            /\ levels L <> [["1"]; ["2"]; ["3"]].
Proof.
  eexists. split; [reflexivity|]. split; [reflexivity | discriminate].
Qed.

(** C7, as stated, fails: with one identifier twice the engine
    returns a layout and no error. *)
Lemma twins_get_a_layout :
  ~ NoDup (ids twins) /\ Host.layout twins = Some (mkLayout [["a"]] [] []).
Proof.
  split; [|reflexivity]. intros H. inversion H as [|? ? Hnot _]; subst.
  apply Hnot. now left.
Qed.

Lemma duplicate_ids_raise_no_error_witness :
  exists L, Host.layout twins = Some L
            /\ NoDup (List.concat (levels L))
            /\ (forall id, In id (List.concat (levels L)) <-> In id (ids twins))
            /\ (forall id, JS.get id (JS.ofEntries (map (fun m => (_id m, m)) twins))
                           = find (fun m => String.eqb (_id m) id) (rev twins)).
Proof.
  apply (duplicate_ids_raise_no_error Host.getFullYear Host.localeCompare twins).
  - intros H. inversion H as [|? ? Hnot _]; subst. apply Hnot. now left.
  - reflexivity.
Defined.

(* ================================================================== *)
(** * More about the traversal *)
(* ================================================================== *)

(** Whatever joins the visited identifier to one not yet seen is
    pushed. *)
Lemma pushes_complete (pE sE : list Edge) (sn : JS.SetS) (id x : string) (g : Z) :
  linked pE sE id x -> JS.mem x sn = false ->
  exists gx, In (x, gx) (pushes pE sE sn id g).
Proof.
  intros Hl Hx. unfold pushes.
  destruct Hl as [H|[H|[H|H]]].
  - exists (g - 1). apply in_app_iff. left. apply in_flat_map. exists (id, x).
    split; [assumption|]. simpl. rewrite String.eqb_refl, Hx. now left.
  - exists (g + 1). apply in_app_iff. right. apply in_app_iff. left.
    apply in_flat_map. exists (x, id).
    split; [assumption|]. simpl. rewrite String.eqb_refl, Hx. now left.
  - exists g. apply in_app_iff. right. apply in_app_iff. right.
    apply in_flat_map. exists (id, x).
    split; [assumption|]. simpl. rewrite String.eqb_refl, Hx. simpl. now left.
  - exists g. apply in_app_iff. right. apply in_app_iff. right.
    apply in_flat_map. exists (x, id).
    split; [assumption|]. simpl. apply in_app_iff. right.
    rewrite String.eqb_refl, Hx. now left.
Qed.

Section TraversalFacts.
Variables pE sE : list Edge.
Variable roots : list string.

Lemma justified_mono (gen gen' : JS.Map Z) (x : string) (gx : Z) :
  (forall n gn, JS.get n gen = Some gn -> JS.get n gen' = Some gn) ->
  justified pE sE roots gen x gx -> justified pE sE roots gen' x gx.
Proof.
  intros Hmono [H|[n [gn [Hn H]]]]; [now left|].
  right. exists n, gn. auto.
Qed.

Lemma allZero_get (m : JS.Map Z) (k : string) :
  allZero m -> In k (JS.keys m) -> JS.get k m = Some 0.
Proof.
  intros Hz Hk. apply get_In_keys in Hk.
  destruct (JS.get k m) as [v|] eqn:E; [|congruence].
  apply get_Some_In in E. unfold allZero in Hz. rewrite Forall_forall in Hz.
  apply Hz in E. simpl in E. now subst.
Qed.

Lemma bfsStep_more (st st' : bfsState) :
  bfsInv pE sE roots st -> bfsStep pE sE st = Some st' ->
  (rootsFirst roots st -> rootsFirst roots st')
  /\ (frontierClosed pE sE st -> frontierClosed pE sE st')
  /\ (allJustified pE sE roots st -> allJustified pE sE roots st').
Proof.
  intros [Hk Hnd Hq Hs Hr]. unfold bfsStep.
  destruct (queue st) as [|[id g] q] eqn:Eq; [discriminate|].
  destruct (JS.mem id (seen st)) eqn:Em; intros [= <-].
  - (* the head was seen: it is dropped *)
    apply mem_In in Em. split; [|split].
    + intros [rs [rest [Hqueue [Hz Hroots]]]]. unfold rootsFirst. simpl.
      rewrite Eq in Hqueue. destruct rs as [|r0 rs]; simpl in Hqueue.
      * exists [], q. split; [reflexivity|]. split; [congruence|].
        intros r Hin. destruct (Hroots r Hin) as [[]|H]. now right.
      * injection Hqueue as <- -> ->. exists rs, rest. split; [reflexivity|].
        assert (Hz0 : allZero (gen st)) by (apply Hz; discriminate).
        split; [auto|]. intros r Hin. destruct (Hroots r Hin) as [[<-|H]|H]; auto.
        right. apply allZero_get; [assumption|]. now rewrite <- Hk.
    + intros Hc x' y Hx' Hl. unfold frontierClosed in Hc. simpl in *. rewrite Eq in Hc.
      destruct (Hc x' y Hx' Hl) as [H|[H|H]]; auto. simpl in H. subst y. auto.
    + intros [Hjq Hjg]. split; simpl; [|assumption].
      intros x gx Hx. apply Hjq. rewrite Eq. now right.
  - (* the head is visited *)
    assert (Hfresh : ~ In id (seen st)) by now apply mem_false.
    assert (Hfresh' : ~ In id (JS.keys (gen st))) by now rewrite <- Hk.
    assert (Hmono : forall n gn, JS.get n (gen st) = Some gn ->
                                 JS.get n (JS.set id g (gen st)) = Some gn).
    { intros n gn Hn. rewrite get_set_other; [assumption|].
      intros ->. apply Hfresh'. apply get_In_keys. congruence. }
    rewrite add_fresh by assumption. split; [|split].
    + intros [rs [rest [Hqueue [Hz Hroots]]]]. unfold rootsFirst. simpl.
      rewrite Eq in Hqueue. destruct rs as [|r0 rs]; simpl in Hqueue.
      * exists [], (q ++ pushes pE sE (seen st ++ [id]) id g).
        split; [reflexivity|]. split; [congruence|].
        intros r Hin. destruct (Hroots r Hin) as [[]|H]. right. now apply Hmono.
      * injection Hqueue as <- -> ->.
        exists rs, (rest ++ pushes pE sE (seen st ++ [id]) id 0).
        split; [now rewrite app_assoc|].
        assert (Hz0 : allZero (gen st)) by (apply Hz; discriminate).
        split; [intros _; now apply set_allZero|].
        intros r Hin. destruct (Hroots r Hin) as [[<-|H]|H]; auto;
          right; first [apply get_set_same | now apply Hmono].
    + intros Hc x' y Hx' Hl. unfold frontierClosed in Hc. simpl in *. rewrite Eq in Hc.
      apply in_app_iff in Hx'. destruct Hx' as [Hx'|[<-|[]]].
      * destruct (Hc x' y Hx' Hl) as [H|[H|H]].
        -- left. apply in_app_iff. now left.
        -- simpl in H. subst y. left. apply in_app_iff. right. now left.
        -- right. rewrite map_app. apply in_app_iff. now left.
      * destruct (JS.mem y (seen st ++ [id])) eqn:Ey.
        -- left. now apply mem_In.
        -- destruct (pushes_complete pE sE _ id y g Hl Ey) as [gy Hy].
           right. rewrite map_app. apply in_app_iff. right.
           change y with (fst (y, gy)). now apply in_map.
    + intros [Hjq Hjg]. rewrite Eq in Hjq. split; simpl.
      * intros x gx Hx. apply in_app_iff in Hx. destruct Hx as [Hx|Hx].
        -- apply (justified_mono (gen st)); [assumption|]. apply Hjq. now right.
        -- apply pushes_spec in Hx. destruct Hx as [_ Hx]. right. exists id, g.
           split; [apply get_set_same|]. tauto.
      * intros x gx Hx. rewrite set_fresh in Hx by assumption.
        apply in_app_iff in Hx. destruct Hx as [Hx|[[= <- <-]|[]]].
        -- apply (justified_mono (gen st)); [assumption|]. now apply Hjg.
        -- apply (justified_mono (gen st)); [assumption|]. apply Hjq. now left.
Qed.

Lemma bfsLoop_more (n : nat) (st : bfsState) :
  bfsInv pE sE roots st -> rootsFirst roots st -> frontierClosed pE sE st -> allJustified pE sE roots st ->
  rootsFirst roots (bfsLoop pE sE n st) /\ frontierClosed pE sE (bfsLoop pE sE n st)
  /\ allJustified pE sE roots (bfsLoop pE sE n st).
Proof.
  revert st. induction n as [|n IH]; intros st Hinv H1 H2 H3; simpl; [auto|].
  destruct (bfsStep pE sE st) as [st'|] eqn:E; [|auto].
  destruct (bfsStep_more st st' Hinv E) as [G1 [G2 G3]].
  apply IH; auto. now apply (bfsStep_spec pE sE roots st st').
Qed.

Lemma bfsInit_more :
  rootsFirst roots (bfsInit roots) /\ frontierClosed pE sE (bfsInit roots)
  /\ allJustified pE sE roots (bfsInit roots).
Proof.
  split; [|split].
  - exists roots, []. simpl. split; [now rewrite app_nil_r|].
    split; [intros _; constructor | auto].
  - intros id x []. 
  - split; simpl; [|contradiction].
    intros x gx Hx. apply in_map_iff in Hx. destruct Hx as [r [[= <- <-] Hr]].
    now left.
Qed.
End TraversalFacts.

Section Reachability.
Variables pE sE : list Edge.
Variable roots : list string.

Lemma bfsStep_connected (st st' : bfsState) :
  bfsStep pE sE st = Some st' -> allConnected pE sE roots st -> allConnected pE sE roots st'.
Proof.
  unfold bfsStep. destruct (queue st) as [|[id g] q] eqn:Eq; [discriminate|].
  intros H [Hq Hs]. rewrite Eq in Hq.
  assert (Hid : connected pE sE roots id) by (apply (Hq id g); now left).
  destruct (JS.mem id (seen st)) eqn:Em; injection H as <-; split; simpl.
  - intros x gx Hx. apply (Hq x gx). now right.
  - assumption.
  - intros x gx Hx. apply in_app_iff in Hx. destruct Hx as [Hx|Hx].
    + apply (Hq x gx). now right.
    + apply pushes_spec in Hx. destruct Hx as [_ Hx].
      apply (connected_step pE sE roots id x Hid). unfold linked. tauto.
  - rewrite add_fresh by assumption. intros x Hx. apply in_app_iff in Hx.
    destruct Hx as [Hx|[<-|[]]]; auto.
Qed.

Lemma bfsLoop_connected (n : nat) (st : bfsState) :
  allConnected pE sE roots st -> allConnected pE sE roots (bfsLoop pE sE n st).
Proof.
  revert st. induction n as [|n IH]; intros st Hst; simpl; [assumption|].
  destruct (bfsStep pE sE st) as [st'|] eqn:E; [|assumption].
  apply IH. now apply (bfsStep_connected st st').
Qed.

(** X2. The traversal assigns a generation to exactly the identifiers
    connected to a root: the roots, and whatever a chain of parent or
    spouse edges, followed in either direction, joins to one. A member
    is left to the label and birth-year heuristics precisely when no
    such chain reaches it. *)
Theorem traversal_assigns_the_connected (id : string) :
  In id (JS.keys (assignGenerations pE sE roots)) <-> connected pE sE roots id.
Proof.
  unfold assignGenerations.
  set (final := bfsLoop pE sE (bfsFuel pE sE roots) (bfsInit roots)).
  assert (Hinv : bfsInv pE sE roots final) by apply bfsLoop_inv, bfsInit_inv.
  assert (Hq : queue final = []) by apply bfs_drains.
  destruct Hinv as [Hk _ _ _ Hr]. rewrite <- Hk. split.
  - assert (Hc : allConnected pE sE roots final).
    { apply bfsLoop_connected. split; simpl; [|contradiction].
      intros x gx Hx. apply in_map_iff in Hx. destruct Hx as [r [[= <- _] Hin]].
      now constructor. }
    apply Hc.
  - destruct (bfsInit_more pE sE roots) as [H1 [H2 H3]].
    destruct (bfsLoop_more pE sE roots (bfsFuel pE sE roots) (bfsInit roots)
                (bfsInit_inv pE sE roots) H1 H2 H3) as [_ [Hclosed _]].
    fold final in Hclosed. unfold frontierClosed in Hclosed. rewrite Hq in Hclosed.
    induction 1 as [r Hin|a b Ha IH Hl].
    + destruct (Hr r Hin) as [H|H]; [assumption|]. rewrite Hq in H. contradiction.
    + destruct (Hclosed a b IH Hl) as [H|[]]. assumption.
Qed.

Lemma assigned_generations_are_justified :
  Forall (fun r => JS.get r (assignGenerations pE sE roots) = Some 0) roots
  /\ Forall (fun e => justified pE sE roots (assignGenerations pE sE roots) (fst e) (snd e))
            (assignGenerations pE sE roots).
Proof.
  unfold assignGenerations.
  set (final := bfsLoop pE sE (bfsFuel pE sE roots) (bfsInit roots)).
  assert (Hq : queue final = []) by apply bfs_drains.
  destruct (bfsInit_more pE sE roots) as [H1 [H2 H3]].
  destruct (bfsLoop_more pE sE roots (bfsFuel pE sE roots) (bfsInit roots)
              (bfsInit_inv pE sE roots) H1 H2 H3) as [Hroots [_ [_ Hj]]].
  fold final in Hroots, Hj. split.
  - destruct Hroots as [rs [rest [Hqueue [_ Hr]]]]. rewrite Hq in Hqueue.
    symmetry in Hqueue. apply app_eq_nil in Hqueue. destruct Hqueue as [Hrs _].
    apply map_eq_nil in Hrs. subst rs.
    apply Forall_forall. intros r Hin. destruct (Hr r Hin) as [[]|H]. assumption.
  - apply Forall_forall. intros [x gx] Hx. now apply Hj.
Qed.

(** X3. Every root gets generation 0, and every other generation the
    traversal assigns is one less than that of an assigned parent, one
    more than that of an assigned child, or equal to that of an
    assigned spouse. *)
Theorem traversal_generations_are_justified :
  Forall (fun r => JS.get r (assignGenerations pE sE roots) = Some 0) roots
  /\ Forall (fun e => justified pE sE roots (assignGenerations pE sE roots) (fst e) (snd e))
            (assignGenerations pE sE roots).
Proof. exact assigned_generations_are_justified. Qed.
End Reachability.

(* ================================================================== *)
(** * More about generations and rows *)
(* ================================================================== *)

Lemma insertByE_perm {A : Type} (cmp : A -> A -> option JS.num) (x : A) (l r : list A) :
  JS.insertByE cmp x l = Some r -> Permutation r (x :: l).
Proof.
  revert r. induction l as [|y l IH]; intros r; simpl.
  - now intros [= <-].
  - destruct (cmp x y) as [v|]; [|discriminate].
    destruct (JS.keepsOrder v); [now intros [= <-]|].
    destruct (JS.insertByE cmp x l) as [r'|]; [|discriminate].
    intros [= <-]. rewrite (IH r' eq_refl). apply perm_swap.
Qed.

Lemma sortByE_perm {A : Type} (cmp : A -> A -> option JS.num) (l r : list A) :
  JS.sortByE cmp l = Some r -> Permutation r l.
Proof.
  revert r. induction l as [|x l IH]; intros r; simpl.
  - now intros [= <-].
  - destruct (JS.sortByE cmp l) as [r'|]; [|discriminate].
    intros H. apply insertByE_perm in H. rewrite H. constructor. now apply IH.
Qed.

Lemma pushAt_nth (i : nat) (id : string) (lv lv' : list (list string)) :
  pushAt i id lv = Some lv' ->
  forall j, nth_error lv' j
            = if Nat.eqb j i then option_map (fun r => r ++ [id]) (nth_error lv j)
              else nth_error lv j.
Proof.
  revert i lv'. induction lv as [|row lv IH]; intros i lv'; simpl.
  - destruct i; discriminate.
  - destruct i as [|i]; simpl.
    + intros [= <-] [|j]; reflexivity.
    + destruct (pushAt i id lv) as [r|] eqn:E; [|discriminate].
      intros [= <-] [|j]; [reflexivity|]. simpl. now apply IH.
Qed.

(** Row [j] ends up with what it held, then the entries whose index is
    [j], in their order. *)
Lemma fillRows_nth (minG : Z) (es : list (string * Z)) (lv lv' : list (list string)) :
  fold_left (fun acc (e : string * Z) =>
               match acc with
               | Some l => pushAt (Z.to_nat (snd e - minG)) (fst e) l
               | None => None
               end) es (Some lv) = Some lv' ->
  forall j, nth_error lv' j
            = option_map
                (fun r => r ++ map fst (filter (fun e : string * Z =>
                                                  Nat.eqb j (Z.to_nat (snd e - minG))) es))
                (nth_error lv j).
Proof.
  revert lv. induction es as [|e es IH]; intros lv; simpl.
  - intros [= <-] j. destruct (nth_error lv j); simpl; [|reflexivity].
    now rewrite app_nil_r.
  - destruct (pushAt (Z.to_nat (snd e - minG)) (fst e) lv) as [lv1|] eqn:E.
    + intros H j. rewrite (IH lv1 H j), (pushAt_nth _ _ _ _ E j).
      destruct (Nat.eqb j (Z.to_nat (snd e - minG))); [|reflexivity].
      destruct (nth_error lv j); simpl; [|reflexivity].
      now rewrite <- app_assoc.
    + intros H. exfalso. clear -H. induction es as [|e' es IH']; simpl in H; [discriminate|].
      auto.
Qed.

Lemma fold_min_In (gs : list Z) (g0 : Z) : In (fold_left Z.min gs g0) (g0 :: gs).
Proof.
  revert g0. induction gs as [|g gs IH]; intros g0; simpl; [now left|].
  destruct (IH (Z.min g0 g)) as [H|H]; [|now right; right].
  rewrite <- H. destruct (Z.min_spec g0 g) as [[_ ->]|[_ ->]]; auto.
Qed.

Lemma fold_max_In (gs : list Z) (g0 : Z) : In (fold_left Z.max gs g0) (g0 :: gs).
Proof.
  revert g0. induction gs as [|g gs IH]; intros g0; simpl; [now left|].
  destruct (IH (Z.max g0 g)) as [H|H]; [|now right; right].
  rewrite <- H. destruct (Z.max_spec g0 g) as [[_ ->]|[_ ->]]; auto.
Qed.

Lemma minGen_le (gen : JS.Map Z) (e : string * Z) :
  In e gen -> minGen gen <= snd e <= maxGen gen.
Proof.
  intros He. unfold minGen, maxGen.
  assert (Hv : In (snd e) (JS.values gen)) by now apply in_map.
  destruct (JS.values gen) as [|g0 gs]; [contradiction|].
  destruct (fold_min_le gs g0) as [H1 H2]. destruct (fold_max_ge gs g0) as [H3 H4].
  rewrite Forall_forall in H2, H4. destruct Hv as [<-|Hv]; [lia|].
  split; [now apply H2 | now apply H4].
Qed.

(** The rows before ordering: one for each generation from the least
    to the greatest, holding the identifiers of that generation in the
    order of their assignment. *)
Lemma initLevels_rows (gen : JS.Map Z) :
  gen <> [] ->
  initLevels gen
  = Some (map (fun i => assignedAt gen (minGen gen + Z.of_nat i))
              (seq 0 (Z.to_nat (maxGen gen - minGen gen + 1)))).
Proof.
  intros Hne. destruct (initLevels_ok gen) as [lv [Hlv _]]. rewrite Hlv. f_equal.
  unfold initLevels, minGen, maxGen in *.
  destruct (JS.values gen) as [|g0 gs] eqn:Ev; [destruct gen; [congruence|discriminate]|].
  assert (Hrange : forall e, In e gen -> fold_left Z.min gs g0 <= snd e).
  { intros e He. pose proof (minGen_le gen e He) as H. unfold minGen in H.
    rewrite Ev in H. lia. }
  set (minG := fold_left Z.min gs g0) in *. set (maxG := fold_left Z.max gs g0) in *.
  set (n := Z.to_nat (maxG - minG + 1)) in *.
  pose proof (fillRows_nth minG gen (repeat [] n) lv Hlv) as Hnth.
  apply nth_ext with (d := []) (d' := []).
  - rewrite length_map, length_seq.
    destruct (fillRows_ok minG gen (repeat [] n)) as [lv2 [Hlv2 [Hlen _]]].
    + rewrite repeat_length. apply Forall_forall. intros e He.
      pose proof (minGen_le gen e He) as H. unfold minGen, maxGen in H.
      rewrite Ev in H. fold minG maxG in H. unfold n. lia.
    + rewrite Hlv in Hlv2. injection Hlv2 as <-. now rewrite Hlen, repeat_length.
  - intros j Hj.
    assert (Hjn : (j < n)%nat).
    { destruct (fillRows_ok minG gen (repeat [] n)) as [lv2 [Hlv2 [Hlen _]]].
      - rewrite repeat_length. apply Forall_forall. intros e He.
        pose proof (minGen_le gen e He) as H. unfold minGen, maxGen in H.
        rewrite Ev in H. fold minG maxG in H. unfold n. lia.
      - rewrite Hlv in Hlv2. injection Hlv2 as <-.
        now rewrite Hlen, repeat_length in Hj. }
    specialize (Hnth j).
    assert (Hrep : nth_error (repeat (@nil string) n) j = Some []).
    { rewrite nth_error_repeat; auto. }
    rewrite Hrep in Hnth. simpl in Hnth.
    apply nth_error_nth with (d := []) in Hnth. rewrite Hnth.
    rewrite nth_indep with (d' := assignedAt gen (minG + Z.of_nat 0)).
    2:{ now rewrite length_map, length_seq. }
    rewrite (map_nth (fun i => assignedAt gen (minG + Z.of_nat i)) (seq 0 n) 0%nat j).
    rewrite seq_nth by assumption. simpl.
    unfold assignedAt. f_equal. apply filter_ext_in. intros e He.
    specialize (Hrange e He). fold minG in Hrange.
    destruct (Nat.eqb_spec j (Z.to_nat (snd e - minG))) as [E|E];
      destruct (Z.eqb_spec (snd e) (minG + Z.of_nat j)) as [E'|E']; try reflexivity; lia.
Qed.

Lemma mapE_Forall2 {A B : Type} (f : A -> option B) (R : B -> A -> Prop)
      (l : list A) (r : list B) :
  (forall x y, f x = Some y -> R y x) -> mapE f l = Some r -> Forall2 R r l.
Proof.
  intros Hf. revert r. induction l as [|x l IH]; intros r; simpl.
  - intros [= <-]. constructor.
  - destruct (f x) as [y|] eqn:E; [|discriminate].
    destruct (mapE f l) as [r'|]; [|discriminate].
    intros [= <-]. constructor; auto.
Qed.

Lemma Forall2_map_right {A B C : Type} (R : A -> C -> Prop) (f : B -> C)
      (xs : list A) (ys : list B) :
  Forall2 R xs (map f ys) -> Forall2 (fun x y => R x (f y)) xs ys.
Proof.
  revert xs. induction ys as [|y ys IH]; intros xs H; simpl in H.
  - inversion H. constructor.
  - inversion H; subst. constructor; auto.
Qed.

Section MoreLayout.
Variable getFullYear : string -> JS.num.
Variable localeCompare : string -> string -> JS.num.

Local Abbreviation layoutOf := (buildTreeLayout getFullYear localeCompare).
Local Abbreviation gensOf := (generations getFullYear).

Lemma families_perm (byId : JS.Map FamilyMember) (pE : list Edge)
      (row : list string) (fam : JS.Map (list string)) :
  Permutation (flat_map snd (fold_left (addToFamily byId pE) row fam))
              (flat_map snd fam ++ row).
Proof.
  revert fam. induction row as [|id row IH]; intros fam; simpl.
  - now rewrite app_nil_r.
  - rewrite IH. unfold addToFamily. rewrite set_push_perm. simpl.
    apply Permutation_middle.
Qed.

(** When the ordering of a row returns, it returns a rearrangement. *)
Lemma orderRow_perm (byId : JS.Map FamilyMember) (pE : list Edge) (row r : list string) :
  orderRow getFullYear localeCompare byId pE row = Some r -> Permutation r row.
Proof.
  unfold orderRow. pose proof (families_perm byId pE row []) as Hfam. simpl in Hfam.
  set (families := fold_left (addToFamily byId pE) row []) in *.
  destruct (mapE _ families) as [sb|] eqn:E; [|discriminate].
  intros [= <-]. rewrite <- Hfam.
  transitivity (flat_map snd sb).
  - apply Permutation_flat_map. apply sortBy_perm.
  - clear Hfam. revert sb E. induction families as [|b fam IH]; intros sb; simpl.
    + now intros [= <-].
    + unfold sortBucket at 1.
      destruct (JS.sortByE _ (snd b)) as [ids'|] eqn:Es; [|discriminate].
      destruct (mapE _ fam) as [sb'|]; [|discriminate].
      intros [= <-]. simpl.
      apply Permutation_app; [eapply sortByE_perm; eassumption | now apply IH].
Qed.

Lemma fill_appends byId root rootG (members : list FamilyMember) (gen : JS.Map Z) :
  exists filled,
    fold_left (fillOne getFullYear byId root rootG) members gen = gen ++ filled
    /\ Forall (fun e => In (fst e) (ids members)) filled.
Proof.
  revert gen. induction members as [|m members IH]; intros gen; simpl.
  - exists []. now rewrite app_nil_r.
  - destruct (IH (fillOne getFullYear byId root rootG gen m)) as [filled [-> Hf]].
    assert (Hf' : Forall (fun e : string * Z => _id m = fst e \/ In (fst e) (ids members))
                         filled)
      by (eapply Forall_impl; [|exact Hf]; simpl; auto).
    unfold fillOne. destruct (JS.has (_id m) gen) eqn:Eh; [eauto|].
    apply has_false in Eh.
    destruct (relDeltaFromRoot (relationship m)); rewrite set_fresh by assumption;
      rewrite <- app_assoc; eexists; (split; [reflexivity|]);
      constructor; simpl; auto.
Qed.

(** X4. Every member gets exactly one generation, whatever the links:
    the map of generations has no identifier twice and holds every
    member identifier; it is the map the traversal built, followed by
    entries for members the traversal did not reach, so the fill
    overwrites nothing. *)
Theorem every_member_gets_one_generation (members : list FamilyMember) (root : string) :
  NoDup (JS.keys (gensOf members root))
  /\ Forall (fun m => JS.has (_id m) (gensOf members root) = true) members
  /\ exists filled,
       gensOf members root
       = assignGenerations (parentEdges members) (spouseEdges members)
                           (selectRoots members (parentEdges members) root)
         ++ filled
       /\ Forall (fun e => In (fst e) (ids members)) filled.
Proof.
  unfold generations.
  set (pE := parentEdges members). set (sE := spouseEdges members).
  set (roots := selectRoots members pE root).
  destruct (assignGenerations_keys pE sE roots) as [Hnd _].
  match goal with |- context [fold_left (fillOne getFullYear ?b ?r ?g) members ?gen] =>
    destruct (fill_keys getFullYear localeCompare b r g members gen Hnd) as [H1 H2];
    destruct (fill_appends b r g members gen) as [filled [Hf1 Hf2]] end.
  split; [assumption|]. split.
  - apply Forall_forall. intros m Hm. apply has_In_keys, H2. right. now apply in_map.
  - exists filled. auto.
Qed.

Lemma generations_nonempty (members : list FamilyMember) (root : string) :
  members <> [] -> gensOf members root <> [].
Proof.
  intros Hne Hnil. destruct members as [|m ms]; [congruence|].
  destruct (every_member_gets_one_generation (m :: ms) root) as [_ [H _]].
  inversion H as [|? ? Hm _]; subst. rewrite Hnil in Hm. discriminate.
Qed.

Lemma pickOldest_nonempty (members : list FamilyMember) (root : string) :
  pickOldest getFullYear members = Some root -> members <> [].
Proof. intros H ->. discriminate. Qed.

Lemma assignedAt_In (gen : JS.Map Z) (e : string * Z) :
  In e gen -> In (fst e) (assignedAt gen (snd e)).
Proof.
  intros He. unfold assignedAt. apply in_map, filter_In. split; [assumption|].
  apply Z.eqb_refl.
Qed.

Lemma assignedAt_ends (gen : JS.Map Z) :
  gen <> [] -> assignedAt gen (minGen gen) <> [] /\ assignedAt gen (maxGen gen) <> [].
Proof.
  intros Hne. unfold minGen, maxGen.
  destruct (JS.values gen) as [|g0 gs] eqn:Ev; [destruct gen; [congruence|discriminate]|].
  pose proof (fold_min_In gs g0) as Hmin. pose proof (fold_max_In gs g0) as Hmax.
  rewrite <- Ev in Hmin, Hmax. unfold JS.values in Hmin, Hmax.
  apply in_map_iff in Hmin. apply in_map_iff in Hmax.
  destruct Hmin as [e1 [E1 H1]]. destruct Hmax as [e2 [E2 H2]].
  apply assignedAt_In in H1. apply assignedAt_In in H2.
  rewrite E1 in H1. rewrite E2 in H2.
  split; intros Hnil; [rewrite Hnil in H1 | rewrite Hnil in H2]; contradiction.
Qed.

(** X5. The rows of a layout are the generations, least first: there
    is one row for each integer from the least to the greatest
    generation, row [i] is a rearrangement of the identifiers whose
    generation is the least plus [i], and the first and the last row
    are never empty. *)
Theorem rows_follow_generations (members : list FamilyMember) (root : string) (L : Layout) :
  pickOldest getFullYear members = Some root -> layoutOf members = Some L ->
  Forall2 (fun row i =>
             Permutation row (assignedAt (gensOf members root)
                                         (minGen (gensOf members root) + Z.of_nat i)))
          (levels L)
          (seq 0 (Z.to_nat (maxGen (gensOf members root) - minGen (gensOf members root) + 1)))
  /\ assignedAt (gensOf members root) (minGen (gensOf members root)) <> []
  /\ assignedAt (gensOf members root) (maxGen (gensOf members root)) <> [].
Proof.
  intros Hp HL. pose proof (pickOldest_nonempty members root Hp) as Hne.
  pose proof (generations_nonempty members root Hne) as Hgen.
  split; [|now apply assignedAt_ends].
  unfold buildTreeLayout in HL. destruct members as [|m0 ms] eqn:Em; [congruence|].
  rewrite <- Em in *. rewrite Hp, (initLevels_rows _ Hgen) in HL.
  destruct (mapE _ _) as [ordered|] eqn:Eo; [|discriminate].
  injection HL as <-. simpl. apply Forall2_map_right.
  eapply mapE_Forall2; [|exact Eo]. intros x y. apply orderRow_perm.
Qed.

(** Without parent edges the generations fill one row. *)
Lemma one_generation_without_parent_edges (members : list FamilyMember) (root : string) :
  members <> [] -> parentEdges members = [] ->
  exists ks, initLevels (gensOf members root) = Some [ks].
Proof.
  intros Hne HpE. unfold generations. rewrite HpE.
  set (sE := spouseEdges members).
  assert (Hroots : selectRoots members [] root = ids members).
  { unfold selectRoots, candidateRoots. simpl.
    assert (Hf : forall l : list string, filter (fun _ => true) l = l)
      by (induction l; simpl; congruence).
    rewrite Hf. unfold ids. destruct members; [congruence | reflexivity]. }
  rewrite Hroots.
  destruct (assignGenerations_keys [] sE (ids members)) as [_ [_ Hall]].
  rewrite fill_none by assumption.
  eexists. apply (initLevels_flat _ 0); [|apply assignGenerations_allZero].
  intros Hnil. destruct members as [|m0 ms]; [congruence|].
  specialize (Hall (_id m0)). rewrite Hnil in Hall. apply Hall. now left.
Qed.

Lemma layout_pEdges (members : list FamilyMember) (L : Layout) :
  layoutOf members = Some L -> pEdges L = parentEdges members.
Proof.
  unfold buildTreeLayout. destruct members as [|m0 ms] eqn:Em.
  - now intros [= <-].
  - rewrite <- Em. assert (Hne : members <> []) by (rewrite Em; discriminate).
    destruct (pickOldest _ _) as [root|]; [|discriminate].
    destruct (parentEdges members) as [|e pE] eqn:EpE.
    + destruct (one_generation_without_parent_edges members root Hne EpE) as [ks Hks].
      unfold generations in *. rewrite EpE in *. rewrite Hks.
      destruct (mapE _ [ks]) as [ordered|] eqn:Eo; [|discriminate].
      apply mapE_length in Eo. intros [= <-]. simpl.
      destruct ordered as [|r [|r' ordered]]; try discriminate. reflexivity.
    + destruct (initLevels _); [|discriminate].
      destruct (mapE _ _); [|discriminate]. now intros [= <-].
Qed.

(** X6. The edge lists of a layout are the graph builder's, as they
    are: the parent edges in the order of the members, each member's
    children first, then father, then mother; the spouse edges
    likewise. None is added, dropped or reordered, and in particular
    none is ever inferred. *)
Theorem edges_are_returned_unchanged (members : list FamilyMember) (L : Layout) :
  layoutOf members = Some L ->
  pEdges L = parentEdges members /\ sEdges L = spouseEdges members.
Proof.
  intros HL. split; [now apply layout_pEdges|].
  now apply (layout_sEdges getFullYear localeCompare).
Qed.

Lemma nodeOf_Some (members : list FamilyMember) (id : string) :
  In id (ids members) -> exists m, nodeOf members id = Some m /\ _id m = id.
Proof.
  unfold nodeOf. induction members as [|m members IH]; simpl; [contradiction|].
  intros H. destruct (String.eqb_spec (_id m) id) as [E|E]; [eauto|].
  destruct H as [H|H]; [congruence | auto].
Qed.

Lemma mapE_total {A B : Type} (f : A -> option B) (R : B -> A -> Prop) (l : list A) :
  Forall (fun x => exists y, f x = Some y /\ R y x) l ->
  exists r, mapE f l = Some r /\ Forall2 R r l.
Proof.
  induction 1 as [|x l [y [Hy HR]] _ [r [Hr HF]]]; simpl.
  - eauto.
  - rewrite Hy, Hr. eauto.
Qed.

Lemma filter_all {A : Type} (f : A -> bool) (l : list A) :
  (forall x, In x l -> f x = true) -> filter f l = l.
Proof.
  induction l as [|x l IH]; intros H; simpl; [reflexivity|].
  rewrite (H x) by now left. f_equal. apply IH. intros y Hy. apply H. now right.
Qed.

(** X7. Where no reference that reaches an edge dangles, the viewer
    can draw what the engine returns: every entry of every row is the
    identifier of a member, so the lookup of its node succeeds and the
    nodes shown are, row by row, the members with the identifiers of
    the row; and both ends of every edge have a node, so every parent
    edge and every spouse edge gets its connector. *)
Theorem viewer_draws_the_whole_layout (members : list FamilyMember) :
  members <> [] -> refsResolve members = true ->
  exists L nodes,
    layoutOf members = Some L
    /\ renderRows members L = Some nodes
    /\ map (map _id) nodes = levels L
    /\ connectors L = map (fun e => (e, pc)) (parentEdges members)
                      ++ map (fun e => (e, sp)) (spouseEdges members).
Proof.
  intros Hne Hres.
  destruct (layout_rows getFullYear localeCompare members Hne Hres)
    as [L [HL [_ [Hin _]]]].
  assert (Hrows : exists nodes, renderRows members L = Some nodes
                                /\ Forall2 (Forall2 (fun m id => _id m = id)) nodes (levels L)).
  { unfold renderRows. apply mapE_total. apply Forall_forall. intros row Hrow.
    apply mapE_total. apply Forall_forall. intros id Hid.
    apply nodeOf_Some, Hin, in_concat. eauto. }
  destruct Hrows as [nodes [Hnodes HF]].
  exists L, nodes. split; [assumption|]. split; [assumption|]. split.
  - clear -HF. induction HF as [|ns row nodes rows Hrow _ IH]; simpl; [reflexivity|].
    f_equal; [|assumption]. clear -Hrow.
    induction Hrow as [|m id ns row E _ IH]; simpl; congruence.
  - unfold connectors. rewrite (layout_pEdges members L HL).
    rewrite (layout_sEdges _ _ members L HL).
    rewrite !filter_all; [reflexivity| |].
    + intros [a b] He. unfold hasNode. simpl.
      destruct (refsResolve_spec members Hres a b (or_intror He)) as [Ha Hb].
      apply andb_true_intro. split; apply mem_In, Hin; assumption.
    + intros [a b] He. unfold hasNode. simpl.
      destruct (refsResolve_spec members Hres a b (or_introl He)) as [Ha Hb].
      apply andb_true_intro. split; apply mem_In, Hin; assumption.
Qed.
End MoreLayout.

(* ================================================================== *)
(** * The two sorts *)
(* ================================================================== *)

Section SortOrder.
Context {A : Type}.
Variable key : A -> Z.

(** The head of a sort by the difference of keys: the first element,
    in the order of the input, among those of least key. *)
Lemma sortBy_head (cmp : A -> A -> JS.num) (l : list A) :
  (forall a b, In a l -> In b l -> cmp a b = JS.Num (key a - key b)) ->
  l <> [] ->
  exists before m after,
    l = before ++ m :: after
    /\ hd_error (JS.sortBy cmp l) = Some m
    /\ (forall x, In x before -> key m < key x)
    /\ (forall x, In x after -> key m <= key x).
Proof.
  induction l as [|x l IH]; intros Hcmp Hne; [congruence|].
  destruct l as [|x' l'].
  - exists [], x, []. simpl. repeat split; tauto.
  - destruct IH as [before [m [after [El [Hhd [Hb Ha]]]]]].
    + intros a b Ha Hb. apply Hcmp; now right.
    + discriminate.
    + assert (Hs : JS.sortBy cmp (x :: x' :: l')
                   = JS.insertBy cmp x (JS.sortBy cmp (x' :: l'))) by reflexivity.
      rewrite Hs. clear Hs.
      destruct (JS.sortBy cmp (x' :: l')) as [|y t]; [discriminate|].
      injection Hhd as ->. simpl.
      assert (Hm : In m (x' :: l')) by (rewrite El; apply in_elt).
      rewrite (Hcmp x m) by (simpl; auto). simpl.
      destruct (Z.leb_spec (key x - key m) 0) as [Hle|Hgt].
      * exists [], x, (x' :: l'). simpl. split; [reflexivity|]. split; [reflexivity|].
        split; [tauto|]. intros z Hz. change (In z (x' :: l')) in Hz.
        rewrite El in Hz. apply in_app_iff in Hz.
        destruct Hz as [Hz|[<-|Hz]].
        -- specialize (Hb z Hz). lia.
        -- lia.
        -- specialize (Ha z Hz). lia.
      * exists (x :: before), m, after. rewrite El. split; [reflexivity|].
        split; [reflexivity|]. split; [|assumption].
        intros z [<-|Hz]; [lia | auto].
Qed.

(** A sort whose comparator decides by the key wherever two keys
    differ returns its input in the order of the keys, whatever it
    does with equal keys. *)
Lemma insertByE_sorted (cmp : A -> A -> option JS.num) (x : A) (l : list A) :
  (forall b, In b l ->
             exists v, cmp x b = Some v
                       /\ (key x < key b -> JS.keepsOrder v = true)
                       /\ (key b < key x -> JS.keepsOrder v = false)) ->
  StronglySorted (fun a b => key a <= key b) l ->
  exists r, JS.insertByE cmp x l = Some r
            /\ Permutation r (x :: l)
            /\ StronglySorted (fun a b => key a <= key b) r.
Proof.
  intros Hcmp Hs. induction Hs as [|y l Hs IH Hy]; simpl.
  - eexists. split; [reflexivity|]. split; [reflexivity|]. repeat constructor.
  - destruct (Hcmp y (or_introl eq_refl)) as [v [-> [H1 H2]]].
    destruct (JS.keepsOrder v) eqn:Ev.
    + eexists. split; [reflexivity|]. split; [reflexivity|].
      assert (Hxy : key x <= key y).
      { destruct (Z.lt_ge_cases (key y) (key x)) as [Hlt|Hge]; [|assumption].
        apply H2 in Hlt. congruence. }
      constructor; [now constructor|]. constructor; [assumption|].
      eapply Forall_impl; [|exact Hy]. simpl. intros. lia.
    + destruct IH as [r [-> [Hp Hr]]]; [intros b Hb; apply Hcmp; now right|].
      assert (Hyx : key y <= key x).
      { destruct (Z.lt_ge_cases (key x) (key y)) as [Hlt|Hge]; [|assumption].
        apply H1 in Hlt. congruence. }
      eexists. split; [reflexivity|]. split; [rewrite Hp; apply perm_swap|].
      constructor; [assumption|].
      eapply Permutation_Forall; [symmetry; exact Hp|]. constructor; assumption.
Qed.

Lemma sortByE_sorted (cmp : A -> A -> option JS.num) (l : list A) :
  (forall a b, In a l -> In b l ->
               exists v, cmp a b = Some v
                         /\ (key a < key b -> JS.keepsOrder v = true)
                         /\ (key b < key a -> JS.keepsOrder v = false)) ->
  exists r, JS.sortByE cmp l = Some r
            /\ Permutation r l
            /\ StronglySorted (fun a b => key a <= key b) r.
Proof.
  induction l as [|x l IH]; intros Hcmp; simpl.
  - eexists. split; [reflexivity|]. split; constructor.
  - destruct IH as [r [-> [Hp Hs]]]; [intros a b Ha Hb; apply Hcmp; now right|].
    destruct (insertByE_sorted cmp x r) as [r' [-> [Hp' Hs']]]; [|assumption|].
    + intros b Hb. apply Hcmp; [now left|]. right. now apply (Permutation_in b Hp).
    + eexists. split; [reflexivity|]. split; [|assumption].
      rewrite Hp'. now constructor.
Qed.
End SortOrder.

Section SortsOfTheEngine.
Variable getFullYear : string -> JS.num.
Variable localeCompare : string -> string -> JS.num.

(** X8. Where every birth date that is given parses, the fallback
    root is the member born earliest, a missing date counting as 9999;
    of several born in that year it is the one that comes first in
    the input. *)
Theorem pickOldest_is_first_oldest (members : list FamilyMember) (born : FamilyMember -> Z) :
  members <> [] ->
  (forall m, In m members -> yearOr9999 getFullYear (dateOfBirth m) = JS.Num (born m)) ->
  exists before m after,
    members = before ++ m :: after
    /\ pickOldest getFullYear members = Some (_id m)
    /\ (forall x, In x before -> born m < born x)
    /\ (forall x, In x after -> born m <= born x).
Proof.
  intros Hne Hborn. unfold pickOldest.
  match goal with |- context [JS.sortBy ?c members] => set (cmp := c) end.
  destruct (sortBy_head born cmp members) as [before [m [after [El [Hhd [Hb Ha]]]]]];
    [|assumption|].
  - intros a b Ha Hb. unfold cmp. now rewrite (Hborn a Ha), (Hborn b Hb).
  - exists before, m, after. split; [assumption|]. split; [|auto].
    destruct (JS.sortBy cmp members); [discriminate|]. now injection Hhd as ->.
Qed.

(** X9. A bucket whose identifiers are all members with birth dates
    that parse, or without one, is sorted: the result is a
    rearrangement of the bucket in which nobody comes before someone
    born in an earlier year (9999 for a missing date), whatever the
    host's collation of the names does among those born in one year. *)
Theorem bucket_is_sorted_by_birth_year
        (byId : JS.Map FamilyMember) (born : string -> Z) (bucket : list string) :
  (forall id, In id bucket ->
              exists m, JS.get id byId = Some m
                        /\ yearOr9999 getFullYear (dateOfBirth m) = JS.Num (born id)) ->
  exists r, JS.sortByE (byDobThenName getFullYear localeCompare byId) bucket = Some r
            /\ Permutation r bucket
            /\ StronglySorted (fun a b => born a <= born b) r.
Proof.
  intros Hborn. apply sortByE_sorted. intros a b Ha Hb.
  destruct (Hborn a Ha) as [ma [Ea Ya]]. destruct (Hborn b Hb) as [mb [Eb Yb]].
  unfold byDobThenName. rewrite Ea, Eb, Ya, Yb. simpl.
  eexists. split; [reflexivity|].
  destruct (Z.eqb_spec (born a) (born b)) as [E|E]; simpl; split; intros H;
    first [lia | apply Z.leb_le; lia | apply Z.leb_gt; lia].
Qed.
End SortsOfTheEngine.

(** With unique identifiers the last member with an identifier is the
    first. *)
Lemma find_rev_unique (members : list FamilyMember) (id : string) :
  NoDup (ids members) ->
  find (fun m => String.eqb (_id m) id) (rev members)
  = find (fun m => String.eqb (_id m) id) members.
Proof.
  induction members as [|m members IH]; intros Hnd; simpl; [reflexivity|].
  inversion Hnd as [|? ? Hnot Hnd']; subst. rewrite find_last, (IH Hnd').
  destruct (String.eqb_spec (_id m) id) as [E|E].
  - destruct (find _ members) as [y|] eqn:Ef; [|reflexivity].
    apply find_some in Ef. destruct Ef as [Hy Ey]. apply String.eqb_eq in Ey.
    exfalso. apply Hnot. rewrite E, <- Ey. now apply in_map.
  - now destruct (find _ members).
Qed.

(** X10. With unique identifiers the viewer and the engine mean the
    same member by an identifier: the node the viewer shows for a row
    entry is the member whose name and birth year the engine used to
    order the row. *)
Theorem viewer_and_engine_agree_on_members (members : list FamilyMember) (id : string) :
  NoDup (ids members) ->
  nodeOf members id = JS.get id (JS.ofEntries (map (fun m => (_id m, m)) members)).
Proof.
  intros Hnd. unfold nodeOf, JS.ofEntries. rewrite byId_last, find_rev_unique by assumption.
  now destruct (find _ members).
Qed.

(* ================================================================== *)
(** * More about the lexicon *)
(* ================================================================== *)

Lemma grandElder_skip (pre s : string) (p prev : option ascii) :
  JS.rmatch grandElder p s JS.accept = true ->
  JS.testFrom grandElder prev (String.append pre s) = true.
Proof.
  revert prev. induction pre as [|c pre IH]; intros prev H.
  - simpl String.append. rewrite testFrom_unfold.
    replace (JS.rmatch grandElder prev s JS.accept)
      with (JS.rmatch grandElder p s JS.accept) by (destruct s; reflexivity).
    now rewrite H.
  - simpl String.append. rewrite testFrom_unfold, IH by assumption. apply orb_true_r.
Qed.

(** X11. A label in which "grandparent", "grandfather" or
    "grandmother" occurs, in whatever letter case and with whatever
    around it, is placed on the elder side: its offset is 1, 2 or 3.
    The younger patterns are not consulted, so "Grandfather's son"
    goes with the grandfathers. *)
Theorem grand_elders_are_placed_above (rel w : string) :
  In w ["grandparent"; "grandfather"; "grandmother"] ->
  contains w (JS.toLowerCase rel) ->
  relDeltaFromRoot rel = Some 1 \/ relDeltaFromRoot rel = Some 2
  \/ relDeltaFromRoot rel = Some 3.
Proof.
  intros Hw [pre [post Hs]].
  assert (Ht : JS.test grandElder (JS.toLowerCase rel) = true).
  { rewrite Hs. unfold JS.test. apply (grandElder_skip pre _ None).
    destruct Hw as [<-|[<-|[<-|[]]]]; reflexivity. }
  unfold relDeltaFromRoot, lexicon. cbn [firstMatch].
  match goal with
  | |- context [if JS.test ?r ?s then Some 3 else _] => destruct (JS.test r s)
  end; [auto|].
  match goal with
  | |- context [if JS.test ?r ?s then Some 2 else _] => destruct (JS.test r s)
  end; [auto|].
  change (JS.cats [JS.Lit "grand"; elders]) with grandElder. rewrite Ht. auto.
Qed.

Lemma grand_elders_are_placed_above_witness :
  relDeltaFromRoot "Grandfather's son" = Some 1
  \/ relDeltaFromRoot "Grandfather's son" = Some 2
  \/ relDeltaFromRoot "Grandfather's son" = Some 3.
Proof.
  apply (grand_elders_are_placed_above "Grandfather's son" "grandfather").
  - simpl. auto.
  - exists "", "'s son". reflexivity.
Defined.

(* ================================================================== *)
(** * The CSV export *)
(* ================================================================== *)

Lemma append_assoc (a b c : string) :
  String.append (String.append a b) c = String.append a (String.append b c).
Proof. induction a as [|x a IH]; simpl; [reflexivity | now rewrite IH]. Qed.

(** The end of a field is found without knowing the field: the first
    double quote that is not the first of a pair closes it. *)
Lemma field_end_is_unique (f1 f2 r1 r2 : string) :
  noQuoteAhead r1 -> noQuoteAhead r2 ->
  String.append (escapeQuotes f1) (String dquote r1)
  = String.append (escapeQuotes f2) (String dquote r2) ->
  f1 = f2 /\ r1 = r2.
Proof.
  intros H1 H2. revert f2. induction f1 as [|c1 f1 IH]; intros f2; simpl.
  - destruct f2 as [|c2 f2]; simpl.
    + intros [= ->]. auto.
    + destruct (Ascii.eqb_spec c2 dquote) as [->|Hc]; simpl.
      * intros [= ->]. simpl in H1. congruence.
      * intros [= <-]. congruence.
  - destruct (Ascii.eqb_spec c1 dquote) as [->|Hc1]; simpl;
      (destruct f2 as [|c2 f2]; simpl;
       [|destruct (Ascii.eqb_spec c2 dquote) as [->|Hc2]; simpl]).
    + intros [= <-]. simpl in H2. congruence.
    + intros [= H]. destruct (IH f2 H) as [-> ->]. auto.
    + intros [= <-]. congruence.
    + intros [= ->]. congruence.
    + intros [= ->]. congruence.
    + intros [= -> H]. destruct (IH f2 H) as [-> ->]. auto.
Qed.

Lemma csvLine_then (r : list (option string)) (k : string) :
  r <> [] -> String.append (csvLine r) k = lineThen r k.
Proof.
  unfold csvLine. induction r as [|f r IH]; intros Hne; [congruence|].
  destruct r as [|f' r'].
  - reflexivity.
  - change (String.append
              (String.append (csvField f) (String comma (joinWith comma (map csvField (f' :: r'))))) k
            = String.append (csvField f) (String comma (lineThen (f' :: r') k))).
    rewrite append_assoc. f_equal. cbn [String.append]. f_equal. apply IH. discriminate.
Qed.

Lemma append_empty (a : string) : String.append a "" = a.
Proof. induction a as [|x a IH]; simpl; [reflexivity | now rewrite IH]. Qed.

Lemma csvText_textOf (t : list (list (option string))) :
  Forall (fun r => r <> []) t -> csvText t = textOf t.
Proof.
  unfold csvText. induction 1 as [|r t Hr Ht IH]; [reflexivity|].
  destruct t as [|r' t'].
  - simpl. rewrite <- (csvLine_then r "" Hr). now rewrite append_empty.
  - change (String.append (csvLine r) (String newline (joinWith newline (map csvLine (r' :: t'))))
            = lineThen r (String newline (textOf (r' :: t')))).
    rewrite IH. now apply csvLine_then.
Qed.

Lemma lineThen_inj (r1 r2 : list (option string)) (k1 k2 : string) :
  r1 <> [] -> r2 <> [] -> lineEnd k1 -> lineEnd k2 ->
  lineThen r1 k1 = lineThen r2 k2 ->
  map orBlank r1 = map orBlank r2 /\ k1 = k2.
Proof.
  intros Hr1 Hr2 Hk1 Hk2. revert r2 Hr2.
  induction r1 as [|f1 r1 IH]; intros r2 Hr2; [congruence|].
  destruct r2 as [|f2 r2]; [congruence|].
  cbn [lineThen]. unfold csvField. cbn [String.append]. rewrite !append_assoc.
  cbn [String.append]. intros [= H].
  assert (Hahead : forall (r : list (option string)) (k : string), lineEnd k ->
            noQuoteAhead (match r with [] => k | _ :: _ => String comma (lineThen r k) end)).
  { intros r k Hk. destruct r; [|simpl; discriminate].
    destruct Hk as [->|[k' ->]]; simpl; [exact I | discriminate]. }
  apply field_end_is_unique in H; [|now apply Hahead..].
  destruct H as [Hf Hrest]. simpl. rewrite Hf.
  destruct r1 as [|g1 r1], r2 as [|g2 r2].
  - subst. auto.
  - exfalso. destruct Hk1 as [->|[k' ->]]; discriminate.
  - exfalso. destruct Hk2 as [->|[k' ->]]; discriminate.
  - assert (Hrest' : lineThen (g1 :: r1) k1 = lineThen (g2 :: r2) k2)
      by (cbv iota in Hrest; congruence).
    destruct (IH ltac:(discriminate) (g2 :: r2) ltac:(discriminate) Hrest') as [Hm ->].
    split; [|reflexivity]. f_equal. exact Hm.
Qed.

Lemma textOf_nonempty (t : list (list (option string))) :
  Forall (fun r => r <> []) t -> t <> [] -> textOf t <> "".
Proof.
  intros Ht Hne. destruct t as [|r t]; [congruence|].
  inversion Ht as [|? ? Hr _]; subst. destruct r as [|f r]; [congruence|].
  simpl. discriminate.
Qed.

(** X12. The CSV text can be read back in one way only: two tables
    without empty rows that give the same text have the same rows of
    the same fields (an absent field being the empty one). Commas,
    line feeds and double quotes inside a field are therefore safe. *)
Theorem csv_text_is_unambiguous (t1 t2 : list (list (option string))) :
  Forall (fun r => r <> []) t1 -> Forall (fun r => r <> []) t2 ->
  csvText t1 = csvText t2 ->
  map (map orBlank) t1 = map (map orBlank) t2.
Proof.
  intros H1 H2. rewrite (csvText_textOf t1 H1), (csvText_textOf t2 H2).
  revert t2 H2. induction H1 as [|r1 t1 Hr1 Ht1 IH]; intros t2 H2.
  - destruct H2 as [|r2 t2 Hr2 Ht2]; [reflexivity|].
    intros H. exfalso. symmetry in H. revert H.
    apply textOf_nonempty; [now constructor | discriminate].
  - destruct H2 as [|r2 t2 Hr2 Ht2].
    + intros H. exfalso. revert H. apply textOf_nonempty; [now constructor | discriminate].
    + cbn [textOf]. intros H. apply lineThen_inj in H; try assumption.
      * destruct H as [Hr Hk]. simpl. rewrite Hr. f_equal.
        destruct t1 as [|r1' t1], t2 as [|r2' t2]; try discriminate; [reflexivity|].
        injection Hk as Hk. now apply IH.
      * destruct t1; [now left | right; eauto].
      * destruct t2; [now left | right; eauto].
Qed.

Lemma csv_text_is_unambiguous_witness :
  map (map orBlank) [[Some "Name"; Some "Bio"]; [Some "Ann, Lee"; None]]
  = map (map orBlank) [[Some "Name"; Some "Bio"]; [Some "Ann, Lee"; Some ""]].
Proof.
  apply csv_text_is_unambiguous.
  - repeat constructor; discriminate.
  - repeat constructor; discriminate.
  - reflexivity.
Defined.

(* ================================================================== *)
(** * The name of the exported file *)
(* ================================================================== *)

Lemma rev_string_append (acc s : string) :
  JS.rev_string acc s = String.append (JS.rev_string "" s) acc.
Proof.
  revert acc. induction s as [|c s IH]; intros acc; simpl; [reflexivity|].
  rewrite (IH (String c acc)), (IH (String c "")), append_assoc. reflexivity.
Qed.

Lemma splitFrom_nonempty (cur : string) (inRun : bool) (s : string) :
  JS.splitFrom cur inRun s <> [].
Proof.
  revert cur inRun. induction s as [|c s IH]; intros cur inRun; simpl; [discriminate|].
  destruct (JS.isSpace c); [destruct inRun|]; auto. discriminate.
Qed.

(** Joining the pieces of a split with underscores is the replacement,
    from either state of the scan. *)
Lemma join_split (s : string) :
  (forall cur, joinWith "_"%char (JS.splitFrom cur false s)
               = String.append (JS.rev_string "" cur) (underscoreFrom false s))
  /\ joinWith "_"%char (JS.splitFrom "" true s) = underscoreFrom true s.
Proof.
  induction s as [|c s [IHa IHb]]; simpl.
  - split; [intros cur; now rewrite append_empty | reflexivity].
  - destruct (JS.isSpace c) eqn:E.
    + split; [|assumption]. intros cur.
      pose proof (splitFrom_nonempty "" true s) as Hne.
      destruct (JS.splitFrom "" true s) as [|x l] eqn:El; [congruence|].
      change (joinWith "_"%char (JS.rev_string "" cur :: x :: l))
        with (String.append (JS.rev_string "" cur)
                            (String "_"%char (joinWith "_"%char (x :: l)))).
      now rewrite IHb.
    + split.
      * intros cur. rewrite IHa. simpl. rewrite (rev_string_append (String c "") cur).
        rewrite append_assoc. reflexivity.
      * rewrite IHa. reflexivity.
Qed.

(** X13. The tree's name as it goes into the name of the exported
    file is the name with every run of white space replaced by one
    underscore: it is the pieces of the name between the runs, empty
    ones at the ends included, joined by underscores. It holds no
    white space, and a name without white space goes in unchanged. *)
Theorem file_name_has_no_white_space (treeName : string) :
  underscoreSpaces treeName = joinWith "_"%char (JS.splitSpaces treeName)
  /\ noSpace (underscoreSpaces treeName) = true
  /\ (noSpace treeName = true -> underscoreSpaces treeName = treeName).
Proof.
  split; [|split].
  - unfold underscoreSpaces, JS.splitSpaces.
    destruct (join_split treeName) as [H _]. now rewrite H.
  - unfold underscoreSpaces.
    generalize false. induction treeName as [|c s IH]; intros b; simpl; [reflexivity|].
    destruct (JS.isSpace c) eqn:E.
    + destruct b; simpl; auto.
    + simpl. rewrite E. simpl. apply IH.
  - unfold underscoreSpaces. induction treeName as [|c s IH]; simpl; [reflexivity|].
    destruct (JS.isSpace c); simpl; [discriminate|].
    intros H. now rewrite IH.
Qed.

(* ================================================================== *)
(** * Who sits at generation 0, and what the viewer cannot draw *)
(* ================================================================== *)

Lemma get_app_left {V : Type} (m m' : JS.Map V) (k : string) (v : V) :
  JS.get k m = Some v -> JS.get k (m ++ m') = Some v.
Proof.
  induction m as [|[k' v'] m IH]; simpl; [discriminate|].
  destruct (String.eqb k' k); auto.
Qed.

Lemma mapE_None {A B : Type} (f : A -> option B) (l : list A) (x : A) :
  In x l -> f x = None -> mapE f l = None.
Proof.
  induction l as [|y l IH]; simpl; [contradiction|].
  intros [->|Hin] Hx.
  - now rewrite Hx.
  - destruct (f y); [|reflexivity]. now rewrite IH.
Qed.

Section GenerationZero.
Variable getFullYear : string -> JS.num.

(** X14. Every member who is nobody's child in the parent edges sits
    at generation 0, whatever else links it: a spouse without recorded
    parents is at 0 even when married to someone generations away,
    because all such members are roots and the roots are taken off the
    queue before anything the traversal pushes. *)
Theorem members_without_parents_sit_at_zero
        (members : list FamilyMember) (root : string) (m : FamilyMember) :
  In m members ->
  (forall p, ~ In (p, _id m) (parentEdges members)) ->
  JS.get (_id m) (generations getFullYear members root) = Some 0.
Proof.
  intros Hm Hnone.
  unfold generations.
  match goal with |- context [fold_left (fillOne getFullYear ?b ?r ?g) members ?gen] =>
    destruct (fill_appends getFullYear b r g members gen) as [filled [-> _]] end.
  apply get_app_left.
  destruct (assigned_generations_are_justified
              (parentEdges members) (spouseEdges members)
              (selectRoots members (parentEdges members) root)) as [Hz _].
  rewrite Forall_forall in Hz. apply Hz.
  assert (Hc : In (_id m) (candidateRoots members (parentEdges members))).
  { unfold candidateRoots. apply filter_In. split; [now apply in_map|].
    apply negb_true_iff, mem_false. rewrite in_map_iff.
    intros [[p c] [E He]]. simpl in E. subst c. now apply (Hnone p). }
  unfold selectRoots. destruct (candidateRoots members (parentEdges members));
    [contradiction | assumption].
Qed.
End GenerationZero.

(** X15. A row entry that is the identifier of no member stops the
    viewer: the lookup of its node finds nothing, and reading the
    name of the node throws. *)
Theorem viewer_throws_on_a_stranger
        (members : list FamilyMember) (L : Layout) (row : list string) (id : string) :
  In row (levels L) -> In id row -> ~ In id (ids members) ->
  renderRows members L = None.
Proof.
  intros Hrow Hid Hnot. unfold renderRows.
  apply (mapE_None _ _ row Hrow). apply (mapE_None _ _ id Hid).
  unfold nodeOf. destruct (find _ members) as [m|] eqn:E; [|reflexivity].
  apply find_some in E. destruct E as [Hm E]. apply String.eqb_eq in E.
  exfalso. apply Hnot. rewrite <- E. now apply in_map.
Qed.

(* ================================================================== *)
(** * The properties above at sample inputs *)
(* ================================================================== *)

Lemma rows_follow_generations_witness :
  let gen := generations Host.getFullYear scenario "1" in
  let L := mkLayout [["3"]; ["2"]; ["1"]] [("1", "2"); ("2", "3")] [] in
  Forall2 (fun row i => Permutation row (assignedAt gen (minGen gen + Z.of_nat i)))
          (levels L) (seq 0 (Z.to_nat (maxGen gen - minGen gen + 1)))
  /\ assignedAt gen (minGen gen) <> []
  /\ assignedAt gen (maxGen gen) <> [].
Proof.
  intros gen L.
  apply (rows_follow_generations Host.getFullYear Host.localeCompare scenario "1" L);
    reflexivity.
Defined.

Lemma edges_are_returned_unchanged_witness :
  let L := mkLayout [["a"; "b"]] [] [("a", "b")] in
  pEdges L = parentEdges couple /\ sEdges L = spouseEdges couple.
Proof.
  intros L.
  apply (edges_are_returned_unchanged Host.getFullYear Host.localeCompare couple L).
  reflexivity.
Defined.

Lemma viewer_draws_the_whole_layout_witness :
  exists L nodes,
    Host.layout scenario = Some L
    /\ renderRows scenario L = Some nodes
    /\ map (map _id) nodes = levels L
    /\ connectors L = map (fun e => (e, pc)) (parentEdges scenario)
                      ++ map (fun e => (e, sp)) (spouseEdges scenario).
Proof.
  apply (viewer_draws_the_whole_layout Host.getFullYear Host.localeCompare scenario).
  - discriminate.
  - reflexivity.
Defined.

Lemma pickOldest_is_first_oldest_witness :
  exists before m after,
    scenario = before ++ m :: after
    /\ pickOldest Host.getFullYear scenario = Some (_id m)
    /\ (forall x, In x before -> hostBorn m < hostBorn x)
    /\ (forall x, In x after -> hostBorn m <= hostBorn x).
Proof.
  apply (pickOldest_is_first_oldest Host.getFullYear scenario hostBorn).
  - discriminate.
  - intros m [<-|[<-|[<-|[]]]]; reflexivity.
Defined.

Lemma bucket_is_sorted_by_birth_year_witness :
  exists r,
    JS.sortByE (byDobThenName Host.getFullYear Host.localeCompare
                  (JS.ofEntries (map (fun m => (_id m, m)) scenario)))
               ["3"; "1"; "2"] = Some r
    /\ Permutation r ["3"; "1"; "2"]
    /\ StronglySorted (fun a b => hostBornById scenario a <= hostBornById scenario b) r.
Proof.
  apply (bucket_is_sorted_by_birth_year Host.getFullYear Host.localeCompare).
  intros id [<-|[<-|[<-|[]]]]; eexists; split; reflexivity.
Defined.

Lemma viewer_and_engine_agree_on_members_witness :
  nodeOf scenario "2" = JS.get "2" (JS.ofEntries (map (fun m => (_id m, m)) scenario)).
Proof.
  apply (viewer_and_engine_agree_on_members scenario "2").
  repeat constructor; simpl; intuition discriminate.
Defined.

Lemma members_without_parents_sit_at_zero_witness :
  JS.get "s" (generations Host.getFullYear inLaw "f") = Some 0.
Proof.
  apply (members_without_parents_sit_at_zero Host.getFullYear inLaw "f"
           (person "s" "Sam Ray" "Son-in-law")).
  - simpl. auto.
  - intros p [H|[]]. discriminate.
Defined.

Lemma viewer_throws_on_a_stranger_witness :
  renderRows danglingChild (mkLayout [["x"]; ["a"]] [("a", "x")] []) = None.
Proof.
  apply (viewer_throws_on_a_stranger danglingChild _ ["x"] "x").
  - simpl. auto.
  - simpl. auto.
  - simpl. intros [H|[]]. discriminate.
Defined.

(* ================================================================== *)
(** * The fill, and the inference of edges *)
(* ================================================================== *)

Lemma relDelta_range (rel : string) (d : Z) :
  relDeltaFromRoot rel = Some d -> -2 <= d <= 3.
Proof.
  unfold relDeltaFromRoot, lexicon. cbn [firstMatch].
  repeat match goal with
         | |- (if JS.test ?r ?s then _ else _) = _ -> _ =>
             destruct (JS.test r s) eqn:?; [intros [= <-]; lia|]
         end.
  destruct (JS.test greatGrandYounger (JS.toLowerCase rel)) eqn:E.
  - apply greatGrandYounger_shadowed in E.
    match goal with H : JS.test grandYounger _ = false |- _ => unfold JS.test in H end.
    congruence.
  - repeat match goal with
           | |- (if JS.test ?r ?s then _ else _) = _ -> _ =>
               destruct (JS.test r s); [intros [= <-]; lia|]
           end.
    discriminate.
Qed.

Section Fill.
Variable getFullYear : string -> JS.num.

Lemma fill_places byId root rootG (members : list FamilyMember) (gen : JS.Map Z)
      (m : FamilyMember) :
  NoDup (ids members) -> In m members -> JS.get (_id m) gen = None ->
  JS.get (_id m) (fold_left (fillOne getFullYear byId root rootG) members gen)
  = Some (fillValue getFullYear byId root rootG m).
Proof.
  revert gen. induction members as [|m0 members IH]; intros gen Hnd Hm Hg; [contradiction|].
  inversion Hnd as [|? ? Hnot Hnd']; subst. simpl.
  destruct Hm as [->|Hm].
  - destruct (fill_appends getFullYear byId root rootG members
                (fillOne getFullYear byId root rootG gen m)) as [filled [-> _]].
    apply get_app_left. unfold fillOne, fillValue, JS.has. rewrite Hg.
    destruct (relDeltaFromRoot (relationship m)); apply get_set_same.
  - apply IH; try assumption.
    assert (Hne : _id m <> _id m0) by (intros E; apply Hnot; rewrite <- E; now apply in_map).
    unfold fillOne. destruct (JS.has (_id m0) gen); [assumption|].
    destruct (relDeltaFromRoot (relationship m0)); now rewrite get_set_other.
Qed.

(** X16. With unique identifiers, a member the traversal does not
    reach gets a generation relative to [rootG], the generation of the
    fallback root (0 when the traversal did not reach that either):
    [rootG] plus the offset of its label where the lexicon knows the
    label. Where it does not: [rootG] itself when the member or the
    fallback root has no birth date (or the fallback root is no
    member); [rootG + 1] when both dates parse and the member was born
    in the same year or earlier; [rootG - 1] when both parse and the
    member was born later, and also when either date is given but does
    not parse. In every case the generation lies between [rootG - 2]
    and [rootG + 3]. *)
Theorem unreached_members_are_placed_by_heuristics
        (members : list FamilyMember) (root : string) (m : FamilyMember) :
  let traversal := assignGenerations (parentEdges members) (spouseEdges members)
                     (selectRoots members (parentEdges members) root) in
  let rootG := match JS.get root traversal with Some g => g | None => 0 end in
  let rootBorn := year getFullYear
                    (match JS.get root (JS.ofEntries (map (fun x => (_id x, x)) members)) with
                     | Some r => dateOfBirth r
                     | None => None
                     end) in
  let born := year getFullYear (dateOfBirth m) in
  NoDup (ids members) -> In m members -> JS.get (_id m) traversal = None ->
  exists g,
    JS.get (_id m) (generations getFullYear members root) = Some g
    /\ rootG - 2 <= g <= rootG + 3
    /\ (forall d, relDeltaFromRoot (relationship m) = Some d -> g = rootG + d)
    /\ (relDeltaFromRoot (relationship m) = None ->
        (born = None \/ rootBorn = None -> g = rootG)
        /\ (forall a b, born = Some (JS.Num a) -> rootBorn = Some (JS.Num b) ->
                        a <= b -> g = rootG + 1)
        /\ (forall a b, born = Some (JS.Num a) -> rootBorn = Some (JS.Num b) ->
                        b < a -> g = rootG - 1)
        /\ (forall y, born = Some JS.NaN -> rootBorn = Some y -> g = rootG - 1)
        /\ (forall y, born = Some y -> rootBorn = Some JS.NaN -> g = rootG - 1)).
Proof.
  intros traversal rootG rootBorn born Hnd Hm Hg.
  exists (fillValue getFullYear (JS.ofEntries (map (fun x => (_id x, x)) members))
                    root rootG m).
  split; [unfold generations; now apply fill_places|].
  unfold fillValue. fold rootBorn born.
  destruct (relDeltaFromRoot (relationship m)) as [d|] eqn:E.
  - split; [apply relDelta_range in E; lia|]. split; [now intros d' [= <-]|]. discriminate.
  - split.
    { destruct born; [|lia]. destruct rootBorn; [|lia]. destruct (JS.le _ _); lia. }
    split; [discriminate|]. intros _. split; [|split; [|split; [|split]]].
    + intros [->| ->]; [reflexivity|]. now destruct born.
    + intros a b -> -> Hab. simpl. now rewrite (proj2 (Z.leb_le a b) Hab).
    + intros a b -> -> Hab. simpl. now rewrite (proj2 (Z.leb_gt a b) Hab).
    + intros y -> ->. reflexivity.
    + intros y -> ->. now destruct y.
Qed.
End Fill.

Lemma unreached_members_are_placed_by_heuristics_witness :
  let m := mkMember "b" "Bo Roe" (Some "n/a") "Cousin" (Some "c") None None None in
  let rootBorn := year Host.getFullYear
                    (match JS.get "a" (JS.ofEntries (map (fun x => (_id x, x)) oddDates)) with
                     | Some r => dateOfBirth r
                     | None => None
                     end) in
  let born := year Host.getFullYear (dateOfBirth m) in
  exists g,
    JS.get "b" (generations Host.getFullYear oddDates "a") = Some g
    /\ 0 - 2 <= g <= 0 + 3
    /\ (forall d, relDeltaFromRoot (relationship m) = Some d -> g = 0 + d)
    /\ (relDeltaFromRoot (relationship m) = None ->
        (born = None \/ rootBorn = None -> g = 0)
        /\ (forall a b, born = Some (JS.Num a) -> rootBorn = Some (JS.Num b) ->
                        a <= b -> g = 0 + 1)
        /\ (forall a b, born = Some (JS.Num a) -> rootBorn = Some (JS.Num b) ->
                        b < a -> g = 0 - 1)
        /\ (forall y, born = Some JS.NaN -> rootBorn = Some y -> g = 0 - 1)
        /\ (forall y, born = Some y -> rootBorn = Some JS.NaN -> g = 0 - 1)).
Proof.
  intros m rootBorn born.
  apply (unreached_members_are_placed_by_heuristics Host.getFullYear oddDates "a" m).
  - repeat constructor; simpl; intuition discriminate.
  - simpl. auto.
  - reflexivity.
Defined.

Lemma connect_from (parents : list string) (start : nat) (kids : list string) :
  parents <> [] -> ~ In "" parents ->
  map snd (flat_map
             (fun ic : nat * string =>
                match nth_error parents (Nat.min (fst ic) (List.length parents - 1)) with
                | Some pid => if String.eqb pid "" then [] else [(pid, snd ic)]
                | None => []
                end)
             (combine (seq start (List.length kids)) kids)) = kids
  /\ Forall (fun e : Edge => In (fst e) parents)
            (flat_map
               (fun ic : nat * string =>
                  match nth_error parents (Nat.min (fst ic) (List.length parents - 1)) with
                  | Some pid => if String.eqb pid "" then [] else [(pid, snd ic)]
                  | None => []
                  end)
               (combine (seq start (List.length kids)) kids)).
Proof.
  intros Hne Hblank. revert start. induction kids as [|k kids IH]; intros start; simpl.
  - split; constructor.
  - destruct (IH (S start)) as [H1 H2].
    assert (Hlt : (Nat.min start (List.length parents - 1) < List.length parents)%nat).
    { destruct parents; [congruence|]. simpl. lia. }
    destruct (nth_error parents (Nat.min start (List.length parents - 1))) as [pid|] eqn:E.
    + assert (Hin : In pid parents) by (eapply nth_error_In; eassumption).
      destruct (String.eqb_spec pid "") as [->|Hp]; [contradiction|].
      simpl. rewrite H1. split; [reflexivity|]. constructor; assumption.
    + apply nth_error_None in E. lia.
Qed.

(** X17. The inference of edges between two adjacent rows gives every
    member of the lower row exactly one edge, in the order of the row,
    each from a member of the upper row, as long as the upper row is
    not empty and holds no empty identifier. *)
Theorem connect_gives_every_kid_one_parent (parents kids : list string) :
  parents <> [] -> ~ In "" parents ->
  map snd (connect parents kids) = kids
  /\ Forall (fun e : Edge => In (fst e) parents) (connect parents kids).
Proof. intros Hne Hblank. unfold connect. now apply connect_from. Qed.

Lemma connect_gives_every_kid_one_parent_witness :
  map snd (connect ["p"] ["k1"; "k2"]) = ["k1"; "k2"]
  /\ Forall (fun e : Edge => In (fst e) ["p"]) (connect ["p"] ["k1"; "k2"]).
Proof.
  apply (connect_gives_every_kid_one_parent ["p"] ["k1"; "k2"]).
  - discriminate.
  - simpl. intros [H|[]]. discriminate.
Defined.

(* ================================================================== *)
(** * Dangling references in the graph builder; repeated spouses *)
(* ================================================================== *)

Section DanglingEdges.
Variable getFullYear : string -> JS.num.
Variable localeCompare : string -> string -> JS.num.

Local Abbreviation layoutOf := (buildTreeLayout getFullYear localeCompare).

(** C2. A reference to an identifier that is not in the collection is
    not dropped. A father that is missing yields the parent edge from
    the missing identifier, a missing spouse the spouse edge to it;
    the traversal follows the edge, so the missing father gets a row
    of its own, where the viewer finds no member for it and throws;
    with father and mother both missing the two sit in one row and the
    engine itself throws in the comparator of the row. *)
Theorem dangling_parent_is_not_dropped :
  parentEdges danglingFather = [("x", "b")]
  /\ ~ In "x" (ids danglingFather)
  /\ spouseEdges danglingSpouse = [("a", "z")]
  /\ ~ In "z" (ids danglingSpouse)
  /\ layoutOf danglingFather = Some (mkLayout [["b"]; ["x"]] [("x", "b")] [])
  /\ renderRows danglingFather (mkLayout [["b"]; ["x"]] [("x", "b")] []) = None
  /\ parentEdges danglingParents = [("x", "b"); ("y", "b")]
  /\ generations getFullYear danglingParents "b" = [("b", 0); ("x", 1); ("y", 1)]
  /\ layoutOf danglingParents = None.
Proof.
  split; [reflexivity|]. split; [simpl; intros [H|[]]; discriminate|].
  split; [reflexivity|]. split; [simpl; intros [H|[]]; discriminate|].
  repeat split; reflexivity.
Qed.
End DanglingEdges.

(** C8, as stated, fails: a member that lists one spouse twice gets
    the edge twice, and so do two members with one identifier that
    each list the spouse. *)
Lemma repeated_spouse_gives_two_edges :
  (String.ltb "a" "b" = true
   /\ listsSpouse listedTwice "a" "b" = true
   /\ exists L, Host.layout listedTwice = Some L
                /\ (count_occ Edge_dec (sEdges L) ("a", "b")
                    + count_occ Edge_dec (sEdges L) ("b", "a"))%nat = 2%nat)
  /\ (listsSpouse sameIdTwice "a" "b" = true
      /\ exists L, Host.layout sameIdTwice = Some L
                   /\ (count_occ Edge_dec (sEdges L) ("a", "b")
                       + count_occ Edge_dec (sEdges L) ("b", "a"))%nat = 2%nat).
Proof.
  split.
  - split; [reflexivity|]. split; [reflexivity|].
    eexists. split; reflexivity.
  - split; [reflexivity|]. eexists. split; reflexivity.
Qed.
